(** * The real-time gateway of xoleric: Socket.IO authentication and events

    A shallow embedding of the Socket.IO part of the backend entry point
    (the [io.use] middleware and the [io.on('connection', ...)] handler
    with the event handlers it registers), and the properties of the
    relay that follow from it.

    The handlers are asynchronous: each [await] on the Supabase client is a
    suspension point at which other connections are served.  A handler is
    therefore a small program ([prog]) whose [Await] node carries the
    request and the continuation; [exec] runs a program up to its next
    suspension on the shared state, and [step] is the event loop of the
    whole gateway.

    What is taken from the libraries the code calls:
    - Socket.IO: [io.emit] reaches every socket of the namespace,
      [io.to(room).emit] every socket in the room, [socket.to(room).emit]
      every socket in the room except the socket itself, [socket.emit] the
      socket if it is still in the namespace and nobody once it has left;
      a socket is in the namespace from just before its
      [connection] event until just before its [disconnect] event; when
      the middleware calls [next(err)] no socket is created.  The private
      room each socket has under its own id is left out: the code only
      addresses rooms named [user:<id>].  A client that goes away while
      its handshake is still with the verifier is not modelled.
    - Supabase: an awaited call resolves to an object [{ data, error }] or
      rejects.
    - Node: between two suspension points a handler runs alone.
    - Redis: the commands of the one client take effect in the order they
      are issued.  The code does not await them: that Redis may refuse a
      command, and what the process then logs, is not modelled, and
      nothing below is said about it.  The set [online_users] lives in
      Redis, outside the process: [boot] is a gateway that starts on an
      empty set and is its only writer.

    Payloads and rows are flat objects whose properties are undefined,
    null, booleans or strings; ids are strings.  An event that comes
    with no payload at all is not modelled: the typing handlers take
    their parameter apart outside any [try] and throw on it.

    After the gateway come two pieces of [routes/analytics.js], the daily
    engagement of [GET /stats] and [GET /user/:userId/activity] (module
    [analytics]), and five of the operations scripts: the renewal of the
    certificate, the health check, the scaling of the backend, the watch
    over the lock files and the deployment (modules [renew_ssl],
    [health_check], [scale_app], [lock_monitor] and [deploy], written in
    the small monad of module [shell] for a script that runs under
    [set -e]). *)

From Stdlib Require Import Ascii.
From stdpp Require Import base strings gmap list sorting.

(** ** Values, objects and the template literal *)

(** The JavaScript values event payloads and table rows are made of here. *)
Inductive value :=
  | VUndefined
  | VNull
  | VBool (b : bool)
  | VStr (s : string).

#[global] Instance value_eq_dec : EqDecision value.
Proof. solve_decision. Defined.

(** A plain object: property name to value. *)
Abbreviation obj := (gmap string value).

(** [o.k]: a missing property reads as [undefined]. *)
Definition get (o : obj) (k : string) : value := default VUndefined (o !! k).

(** [!v] is [negb (truthy v)]. *)
Definition truthy (v : value) : bool :=
  match v with
  | VUndefined | VNull => false
  | VBool b => b
  | VStr s => negb (String.eqb s "")
  end.

(** String coercion inside a template literal. *)
Definition to_string (v : value) : string :=
  match v with
  | VUndefined => "undefined"
  | VNull => "null"
  | VBool true => "true"
  | VBool false => "false"
  | VStr s => s
  end.

(** [`user:${id}`] *)
Definition user_room (id : value) : string := "user:" +:+ to_string id.

(** What [throw] throws and rejected promises carry. *)
Inductive js_error :=
  | Error (message : string)
  | TypeError (message : string).

#[global] Instance js_error_eq_dec : EqDecision js_error.
Proof. solve_decision. Defined.

(** The identity the verifier returns; [socket.user]. *)
Record User := { id : string; email : string }.

#[global] Instance User_eq_dec : EqDecision User.
Proof. solve_decision. Defined.

(** A connection of the namespace: its id, the identity the middleware
    bound to it, and the rooms it has joined. *)
Record socket := { sid : nat; user : User; rooms : gset string }.

(** ** The external services *)

(** The calls on the Supabase client that the handlers await. *)
Inductive query :=
  | auth_getUser (token : value)
      (* supabase.auth.getUser(token) *)
  | insert_message (row : obj)
      (* supabase.from('messages').insert([row]).select().single() *)
  | insert_notification (row : obj)
      (* supabase.from('notifications').insert([row]) *)
  | select_followers (following_id : string).
      (* supabase.from('follows').select('follower_id').eq('following_id', id) *)

(** The [{ data, error }] object a call resolves to. *)
Record response (D : Type) := { data : D; error : option js_error }.
Arguments data {D} _.
Arguments error {D} _.

Definition answer (q : query) : Type :=
  match q with
  | auth_getUser _ => response (option (option User))  (* data: null or { user } *)
  | insert_message _ => response (option obj)
  | insert_notification _ => response unit                (* data is not looked at *)
  | select_followers _ => response (option (list obj))
  end.

(** How an awaited promise settles. *)
Inductive settlement (X : Type) :=
  | Fulfilled (x : X)
  | Rejected (e : js_error).
Arguments Fulfilled {X} _.
Arguments Rejected {X} _.

(** The environment's answer to whatever call is pending. *)
Definition oracle := ∀ q : query, settlement (answer q).

(** ** Outbound events and the synchronous effects *)

Inductive payload :=
  | PNull
  | PStr (s : string)
  | PObj (o : obj)
  | PPost (post : obj) (u : User).        (* { post, user } *)

(** Which emitter was used. *)
Inductive target :=
  | ToAll                                   (* io.emit *)
  | ToRoom (room : string)                  (* io.to(room).emit *)
  | ToRoomExcept (room : string) (me : nat) (* socket.to(room).emit *)
  | ToSocket (me : nat).                    (* socket.emit *)

Inductive action :=
  | register (s : socket)            (* the namespace starts tracking the socket *)
  | unregister (c : nat)             (* the socket leaves its rooms and the namespace *)
  | join (c : nat) (room : string)   (* socket.join(room) *)
  | redis_sadd (member : string)     (* redis.sadd('online_users', member) *)
  | redis_srem (member : string)     (* redis.srem('online_users', member) *)
  | emit (t : target) (ev : string) (p : payload)
  | logger (level msg : string) (detail : option js_error)
  | connect_error (c : nat) (e : js_error).  (* next(err): the handshake is refused *)

(** What the gateway does that can be seen from outside, in order. *)
Inductive obs :=
  | OEmit (t : target) (ev : string) (p : payload) (recipients : list nat)
  | ORequest (q : query)
  | OLog (level msg : string) (detail : option js_error)
  | OConnectError (c : nat) (e : js_error).

(** The state shared by all connections: the sockets of the namespace in
    connection order, the Redis set [online_users], and the wall clock. *)
Record state := {
  sockets : list socket;
  online_users : gset string;
  now : string
}.

Definition with_sockets (σ : state) (l : list socket) : state :=
  {| sockets := l; online_users := online_users σ; now := now σ |}.

Definition with_online (σ : state) (X : gset string) : state :=
  {| sockets := sockets σ; online_users := X; now := now σ |}.

Definition in_room (room : string) (s : socket) : bool :=
  bool_decide (room ∈ rooms s).

(** The connections an emitter reaches, in connection order.  A socket
    that has left the namespace is not written to any more. *)
Definition recipients_of (t : target) (σ : state) : list nat :=
  match t with
  | ToAll => sid <$> sockets σ
  | ToRoom room => sid <$> List.filter (in_room room) (sockets σ)
  | ToRoomExcept room me =>
      sid <$> List.filter (λ s, in_room room s && negb (sid s =? me)) (sockets σ)
  | ToSocket me => if bool_decide (me ∈ sid <$> sockets σ) then [me] else []
  end.

Definition join_room (c : nat) (room : string) (s : socket) : socket :=
  if sid s =? c
  then {| sid := sid s; user := user s; rooms := {[room]} ∪ rooms s |}
  else s.

Definition perform (a : action) (σ : state) : state * list obs :=
  match a with
  | register s => (with_sockets σ (sockets σ ++ [s]), [])
  | unregister c =>
      (with_sockets σ (List.filter (λ s, negb (sid s =? c)) (sockets σ)), [])
  | join c room => (with_sockets σ (join_room c room <$> sockets σ), [])
  | redis_sadd x => (with_online σ ({[x]} ∪ online_users σ), [])
  | redis_srem x => (with_online σ (online_users σ ∖ {[x]}), [])
  | emit t ev p => (σ, [OEmit t ev p (recipients_of t σ)])
  | logger level msg detail => (σ, [OLog level msg detail])
  | connect_error c e => (σ, [OConnectError c e])
  end.

(** ** Handler programs *)

Inductive prog (A : Type) : Type :=
  | Ret (a : A)
  | Throw (e : js_error)
  | Do (a : action) (k : prog A)
  | Clock (k : string → prog A)     (* new Date().toISOString() *)
  | Await (q : query) (k : settlement (answer q) → prog A).
Arguments Ret {A} _.
Arguments Throw {A} _.
Arguments Do {A} _ _.
Arguments Clock {A} _.
Arguments Await {A} _ _.

Fixpoint bind {A B} (m : prog A) (f : A → prog B) : prog B :=
  match m with
  | Ret a => f a
  | Throw e => Throw e
  | Do a k => Do a (bind k f)
  | Clock k => Clock (λ t, bind (k t) f)
  | Await q k => Await q (λ s, bind (k s) f)
  end.

#[global] Instance prog_ret : MRet prog := @Ret.
#[global] Instance prog_bind : MBind prog := λ A B f m, bind m f.

(** [try { m } catch (error) { h error }] *)
Fixpoint try_catch {A} (m : prog A) (h : js_error → prog A) : prog A :=
  match m with
  | Ret a => Ret a
  | Throw e => h e
  | Do a k => Do a (try_catch k h)
  | Clock k => Clock (λ t, try_catch (k t) h)
  | Await q k => Await q (λ s, try_catch (k s) h)
  end.

Definition act (a : action) : prog unit := Do a (Ret tt).

(** [await q]: a rejected promise throws at the [await]. *)
Definition await (q : query) : prog (answer q) :=
  Await q (λ s, match s with Fulfilled r => Ret r | Rejected e => Throw e end).

Definition date_now : prog string := Clock Ret.

(** Where a program stands when control returns to the event loop. *)
Inductive status (A : Type) : Type :=
  | Finished (a : A)
  | Failed (e : js_error)
  | Suspended (q : query) (k : settlement (answer q) → prog A).
Arguments Finished {A} _.
Arguments Failed {A} _.
Arguments Suspended {A} _ _.

(** Run to completion or to the next [await]; the request of the [await]
    is issued before control returns. *)
Fixpoint exec {A} (p : prog A) (σ : state) : state * list obs * status A :=
  match p with
  | Ret a => (σ, [], Finished a)
  | Throw e => (σ, [], Failed e)
  | Do a k =>
      let '(σ1, tr1) := perform a σ in
      let '(σ2, tr2, st) := exec k σ1 in
      (σ2, tr1 ++ tr2, st)
  | Clock k => exec (k (now σ)) σ
  | Await q k => (σ, [ORequest q], Suspended q k)
  end.

(** ** The Socket.IO middleware and handlers *)

Definition authentication_error : js_error := Error "Authentication error".

(** [io.use(async (socket, next) => ...)], on the handshake's
    [auth.token].  The result is what [next] is called with: [inl err] for
    [next(err)], [inr user] for [socket.user = user; next()]. *)
Definition auth_middleware (token : value) : prog (js_error + User) :=
  try_catch
    (if negb (truthy token) then Ret (inl authentication_error)
     else
       r ← await (auth_getUser token);
       match data r with
       | None => Throw (TypeError "Cannot destructure property 'user'")
       | Some user =>
           match error r, user with
           | None, Some u => Ret (inr u)
           | _, _ => Ret (inl authentication_error)
           end
       end)
    (λ _, Ret (inl authentication_error)).

(** The body of [io.on('connection', (socket) => ...)] up to the handler
    registrations. *)
Definition on_connection (me : socket) : prog unit :=
  act (logger "info" ("User connected: " +:+ id (user me)) None);;
  act (join (sid me) (user_room (VStr (id (user me)))));;
  act (redis_sadd (id (user me)));;
  act (emit ToAll "user_online" (PStr (id (user me)))).

(** A client connects: the middleware decides; on [next()] the namespace
    tracks the socket and fires [connection], on [next(err)] the client
    is sent the error and no socket exists. *)
Definition accept (c : nat) (token : value) : prog unit :=
  v ← auth_middleware token;
  match v with
  | inl e => act (connect_error c e)
  | inr u =>
      let me := {| sid := c; user := u; rooms := ∅ |} in
      act (register me);; on_connection me
  end.

(** [socket.on('typing_start', ({ chatId }) => ...)] and
    [socket.on('typing_stop', ...)], for a payload that is an object. *)
Definition on_typing_start (me : socket) (payload : obj) : prog unit :=
  let chatId := get payload "chatId" in
  act (emit (ToRoomExcept (user_room chatId) (sid me)) "typing_start"
         (PObj {[ "userId" := VStr (id (user me));
                  "chatId" := VStr (id (user me)) ]})).

Definition on_typing_stop (me : socket) (payload : obj) : prog unit :=
  let chatId := get payload "chatId" in
  act (emit (ToRoomExcept (user_room chatId) (sid me)) "typing_stop"
         (PObj {[ "chatId" := VStr (id (user me)) ]})).

(** [{ ...messageData, sender_id: socket.user.id }] *)
Definition message_row (me : socket) (messageData : obj) : obj :=
  <["sender_id" := VStr (id (user me))]> messageData.

Definition notification_row (me : socket) (messageData : obj)
    (message_id : value) (created_at : string) : obj :=
  {[ "user_id" := get messageData "receiver_id";
     "type" := VStr "message";
     "actor_id" := VStr (id (user me));
     "message_id" := message_id;
     "read" := VBool false;
     "created_at" := VStr created_at ]}.

Definition message_payload (message : option obj) : payload :=
  match message with Some m => PObj m | None => PNull end.

Definition send_failed : payload :=
  PObj {[ "message" := VStr "Failed to send message" ]}.

Definition on_send_message (me : socket) (messageData : obj) : prog unit :=
  try_catch
    (r ← await (insert_message (message_row me messageData));
     let message := data r in
     match error r with Some e => Throw e | None => Ret tt end;;
     act (emit (ToRoom (user_room (get messageData "receiver_id")))
            "new_message" (message_payload message));;
     message_id ← match message with
                   | Some m => Ret (get m "id")
                   | None => Throw (TypeError "Cannot read properties of null")
                   end;
     created_at ← date_now;
     r2 ← await (insert_notification
                    (notification_row me messageData message_id created_at));
     match error r2 with
     | Some notifError => act (logger "error" "Notification error:" (Some notifError))
     | None => Ret tt
     end)
    (λ error,
       act (logger "error" "Message send error:" (Some error));;
       act (emit (ToSocket (sid me)) "error" send_failed)).

(** [followers.forEach(f)] *)
Fixpoint for_each {X} (l : list X) (f : X → prog unit) : prog unit :=
  match l with
  | [] => Ret tt
  | x :: l' => f x;; for_each l' f
  end.

Definition on_new_post (me : socket) (post : obj) : prog unit :=
  try_catch
    (r ← await (select_followers (id (user me)));
     match data r with
     | Some followers =>
         if 0 <? length followers then
           for_each followers (λ follower,
             act (emit (ToRoom (user_room (get follower "follower_id")))
                    "new_post_notification" (PPost post (user me))))
         else Ret tt
     | None => Ret tt
     end)
    (λ error, act (logger "error" "Post notification error:" (Some error))).

Definition on_disconnect (me : socket) : prog unit :=
  act (logger "info" ("User disconnected: " +:+ id (user me)) None);;
  act (redis_srem (id (user me)));;
  act (emit ToAll "user_offline" (PStr (id (user me)))).

(** The transport of a connection closes: the socket leaves its rooms and
    the namespace, then its [disconnect] handler runs. *)
Definition close (me : socket) : prog unit :=
  act (unregister (sid me));; on_disconnect me.

(** ** The event loop *)

Inductive inbound :=
  | typing_start (payload : obj)
  | typing_stop (payload : obj)
  | send_message (messageData : obj)
  | new_post (post : obj).

(** The handlers [on_connection] registers on a socket. *)
Definition handler (me : socket) (e : inbound) : prog unit :=
  match e with
  | typing_start payload => on_typing_start me payload
  | typing_stop payload => on_typing_stop me payload
  | send_message messageData => on_send_message me messageData
  | new_post post => on_new_post me post
  end.

(** A handler suspended on a pending call. *)
Inductive task := Task (q : query) (k : settlement (answer q) → prog unit).

Record system := {
  shared : state;
  history : list obs;
  next_socket : nat;
  next_task : nat;
  tasks : gmap nat task
}.

(** The gateway as it starts: nobody is connected, nothing is pending,
    and the set in Redis is empty. *)
Definition boot : system :=
  {| shared := {| sockets := []; online_users := ∅; now := "" |};
     history := []; next_socket := 0; next_task := 0; tasks := ∅ |}.

Definition find_socket (c : nat) (σ : state) : option socket :=
  List.find (λ s, sid s =? c) (sockets σ).

(** Run a program on the shared state until it finishes or suspends; a
    suspended program waits in the task table.  An error that escapes an
    async function is what [process.on('unhandledRejection')] logs. *)
Definition spawn (p : prog unit) (s : system) : system :=
  let '(σ, tr, st) := exec p (shared s) in
  match st with
  | Finished _ =>
      {| shared := σ; history := history s ++ tr;
         next_socket := next_socket s; next_task := next_task s;
         tasks := tasks s |}
  | Failed e =>
      {| shared := σ;
         history := history s ++ tr ++ [OLog "error" "Unhandled Rejection at:" (Some e)];
         next_socket := next_socket s; next_task := next_task s;
         tasks := tasks s |}
  | Suspended q k =>
      {| shared := σ; history := history s ++ tr;
         next_socket := next_socket s; next_task := S (next_task s);
         tasks := <[next_task s := Task q k]> (tasks s) |}
  end.

Inductive input :=
  | Connect (token : value)           (* a client opens a connection *)
  | Inbound (c : nat) (e : inbound)   (* a client sends an event *)
  | Close (c : nat)                   (* a connection's transport closes *)
  | Settle (t : nat) (ω : oracle)     (* the call task [t] awaits settles *)
  | Tick (t : string).                (* time passes *)

Definition step (s : system) (i : input) : system :=
  match i with
  | Connect token =>
      spawn (accept (next_socket s) token)
        {| shared := shared s; history := history s;
           next_socket := S (next_socket s); next_task := next_task s;
           tasks := tasks s |}
  | Inbound c e =>
      match find_socket c (shared s) with
      | Some me => spawn (handler me e) s
      | None => s
      end
  | Close c =>
      match find_socket c (shared s) with
      | Some me => spawn (close me) s
      | None => s
      end
  | Settle t ω =>
      match tasks s !! t with
      | Some (Task q k) =>
          spawn (k (ω q))
            {| shared := shared s; history := history s;
               next_socket := next_socket s; next_task := next_task s;
               tasks := delete t (tasks s) |}
      | None => s
      end
  | Tick t =>
      {| shared := {| sockets := sockets (shared s);
                      online_users := online_users (shared s); now := t |};
         history := history s; next_socket := next_socket s;
         next_task := next_task s; tasks := tasks s |}
  end.

Definition steps (s : system) (l : list input) : system := foldl step s l.

(** ** Reading a trace *)

(** The connections bound to a channel, as [io.to(room)] sees them. *)
Definition bound (room : string) (σ : state) : list nat :=
  recipients_of (ToRoom room) σ.

Definition emission (ev : string) (o : obs) : option (target * payload * list nat) :=
  match o with
  | OEmit t ev' p rs => if String.eqb ev' ev then Some (t, p, rs) else None
  | _ => None
  end.

(** The emissions of event [ev], in order: emitter, payload, connections
    reached. *)
Definition emitted (ev : string) (tr : list obs) : list (target * payload * list nat) :=
  omap (emission ev) tr.

(** The connections event [ev] was written to, with multiplicity. *)
Definition received (ev : string) (tr : list obs) : list nat :=
  concat (snd <$> emitted ev tr).

(** How many times connection [c] was sent event [ev]. *)
Definition deliveries (ev : string) (c : nat) (tr : list obs) : nat :=
  count_occ Nat.eq_dec (received ev tr) c.

Definition requests (tr : list obs) : list query :=
  omap (λ o, match o with ORequest q => Some q | _ => None end) tr.

Definition is_insert_message (q : query) : bool :=
  match q with insert_message _ => true | _ => false end.

Definition is_insert_notification (q : query) : bool :=
  match q with insert_notification _ => true | _ => false end.

(** What the operator sees: the [logger.error] entries. *)
Definition error_log (tr : list obs) : list (string * option js_error) :=
  omap (λ o, match o with
             | OLog level msg d => if String.eqb level "error" then Some (msg, d) else None
             | _ => None
             end) tr.

(** A call failed: the promise rejected, or it resolved to a response
    whose [error] is set. *)
Definition failed {D} (s : settlement (response D)) : bool :=
  match s with
  | Rejected _ => true
  | Fulfilled r => match error r with Some _ => true | None => false end
  end.

Definition success {D} (d : D) : settlement (response D) :=
  Fulfilled {| data := d; error := None |}.

Definition failure {D} (d : D) (e : js_error) : settlement (response D) :=
  Fulfilled {| data := d; error := Some e |}.

(** An environment given by how each kind of call settles. *)
Definition services
    (verifier : settlement (response (option (option User))))
    (messages : settlement (response (option obj)))
    (notifications : settlement (response unit))
    (follows : settlement (response (option (list obj)))) : oracle :=
  λ q, match q return settlement (answer q) with
       | auth_getUser _ => verifier
       | insert_message _ => messages
       | insert_notification _ => notifications
       | select_followers _ => follows
       end.

(** ** Running a handler across its suspensions *)

(** [run p ω σ later]: run [p] on [σ]; each time it suspends while the
    environment still has a state in [later], the pending call settles as
    [ω] says and the program resumes on that state, which is the shared
    state as the other connections have left it by then.  The result
    lists, per stretch, the state the stretch ends in and what it did. *)
Fixpoint run {A} (p : prog A) (ω : oracle) (σ : state) (later : list state)
    : list (state * list obs) * status A :=
  let '(σ', tr, st) := exec p σ in
  match st, later with
  | Suspended q k, σ1 :: later' =>
      let '(l, st') := run (k (ω q)) ω σ1 later' in
      ((σ', tr) :: l, st')
  | _, _ => ([(σ', tr)], st)
  end.

(** Everything a run did, in order. *)
Definition trace {A} (r : list (state * list obs) * status A) : list obs :=
  concat (snd <$> r.1).

(** The identity the middleware binds to a connection that presents
    [token], if any: the token is truthy and the verifier resolves to a
    user and no error. *)
Definition vouched (s : settlement (response (option (option User)))) : option User :=
  match s with
  | Fulfilled r =>
      match data r, error r with
      | Some (Some u), None => Some u
      | _, _ => None
      end
  | Rejected _ => None
  end.

Definition admits (ω : oracle) (token : value) : option User :=
  if truthy token then vouched (ω (auth_getUser token)) else None.

(** ** Properties of programs and of the whole gateway *)

(** Every socket a program may register, along the settlements [Ω]
    allows, has an id in [P]. *)
Fixpoint registers_only (P : nat → Prop) (Ω : oracle → Prop) {A} (p : prog A) : Prop :=
  match p with
  | Ret _ | Throw _ => True
  | Do a k =>
      match a with register s => P (sid s) | _ => True end
      ∧ registers_only P Ω k
  | Clock k => ∀ t, registers_only P Ω (k t)
  | Await q k => ∀ ω, Ω ω → registers_only P Ω (k (ω q))
  end.

(** A program that touches neither the namespace nor the presence set:
    all it does is emit, log and call the storage. *)
Fixpoint relays_only {A} (p : prog A) : Prop :=
  match p with
  | Ret _ | Throw _ => True
  | Do a k =>
      match a with
      | emit _ _ _ | logger _ _ _ => True
      | _ => False
      end ∧ relays_only k
  | Clock k => ∀ t, relays_only (k t)
  | Await q k => ∀ s, relays_only (k s)
  end.

(** Whatever a suspended handler registers once its call has settled
    within [Ω] has an id in [P]. *)
Definition settles_safely (P : nat → Prop) (Ω : oracle → Prop) (tk : task) : Prop :=
  match tk with
  | Task q k => ∀ ω, Ω ω → registers_only P Ω (k (ω q))
  end.

(** The sockets of the namespace have ids in [P], and so will any socket
    a suspended handler registers. *)
Definition confined (P : nat → Prop) (Ω : oracle → Prop) (s : system) : Prop :=
  (∀ x, x ∈ sockets (shared s) → P (sid x))
  ∧ map_Forall (λ _, settles_safely P Ω) (tasks s).

(** Socket ids are handed out in order, also to the handshakes that are
    still waiting for the verifier. *)
Definition fresh_ids (s : system) : Prop :=
  confined (λ c, c < next_socket s) (λ _, True) s.

(** Connection [c] has been handed its id, is not served, and will not be
    as long as the pending calls settle within [Ω]. *)
Definition shut_out (c : nat) (Ω : oracle → Prop) (s : system) : Prop :=
  c < next_socket s ∧ confined (λ c', c' ≠ c) Ω s.

(** An input that, if it is a settlement, is one [Ω] allows. *)
Definition settles_within (Ω : oracle → Prop) (i : input) : Prop :=
  match i with
  | Settle _ ω => Ω ω
  | _ => True
  end.

(** The verifier does not vouch for [token]. *)
Definition turns_away (token : value) (ω : oracle) : Prop :=
  admits ω token = None.

(** A program out of which no error escapes. *)
Fixpoint catches_all {A} (p : prog A) : Prop :=
  match p with
  | Ret _ => True
  | Throw _ => False
  | Do _ k => catches_all k
  | Clock k => ∀ t, catches_all (k t)
  | Await q k => ∀ s, catches_all (k s)
  end.

(** The task a suspended program leaves in the table. *)
Definition pending (st : status unit) : option task :=
  match st with
  | Suspended q k => Some (Task q k)
  | _ => None
  end.

(** The handshake of connection [c], waiting for the verifier. *)
Definition pending_handshake (c : nat) (token : value) : option task :=
  pending (exec (accept c token) (shared boot)).2.

(** A suspended event handler: whatever it resumes to only relays. *)
Definition relay_task (tk : task) : Prop :=
  match tk with Task q k => ∀ s, relays_only (k s) end.

(** The bookkeeping of the gateway is sound: socket ids are distinct and
    were handed out in order; each task is a pending handshake, of the
    connection [owner] names, or a suspended event handler; a connection
    with a pending handshake has no socket yet, and has one handshake. *)
Definition sane (owner : gmap nat (nat * value)) (l : list socket) (n : nat)
    (T : gmap nat task) : Prop :=
  NoDup (sid <$> l)
  ∧ (∀ x, x ∈ l → sid x < n)
  ∧ (∀ t tk, T !! t = Some tk →
       match owner !! t with
       | Some (c, token) => pending_handshake c token = Some tk
       | None => relay_task tk
       end)
  ∧ (∀ t c token, owner !! t = Some (c, token) → c < n ∧ c ∉ sid <$> l)
  ∧ (∀ t1 t2 c tok1 tok2,
       owner !! t1 = Some (c, tok1) → owner !! t2 = Some (c, tok2) → t1 = t2).

Definition well_formed (s : system) : Prop :=
  ∃ owner, sane owner (sockets (shared s)) (next_socket s) (tasks s).

(** The presence invariant: a user is in [online_users] exactly when one
    of the live connections is theirs. *)
Definition presence_exact (σ : state) : Prop :=
  ∀ uid : string,
    uid ∈ online_users σ ↔ ∃ x, x ∈ sockets σ ∧ id (user x) = uid.

(** The half of the presence invariant that does hold: whoever is marked
    online has a live connection. *)
Definition presence_sound (σ : state) : Prop :=
  ∀ uid : string,
    uid ∈ online_users σ → ∃ x, x ∈ sockets σ ∧ id (user x) = uid.


(** ** A small cast for the examples *)

Definition u1 : User := {| id := "u1"; email := "u1@xoleric.uz" |}.
Definition u2 : User := {| id := "u2"; email := "u2@xoleric.uz" |}.
Definition u3 : User := {| id := "u3"; email := "u3@xoleric.uz" |}.

(** A connection as [on_connection] leaves it: in its user's room. *)
Definition device (c : nat) (u : User) : socket :=
  {| sid := c; user := u; rooms := {[ user_room (VStr (id u)) ]} |}.

Definition noon : string := "2024-05-01T12:00:00.000Z".

(** [u1] on one device, [u2] on two. *)
Definition lobby : state :=
  {| sockets := [device 0 u1; device 1 u2; device 2 u2];
     online_users := {[ "u1"; "u2" ]};
     now := noon |}.

Definition hi : obj := {[ "receiver_id" := VStr "u2"; "content" := VStr "hi" ]}.

Definition stored_hi : obj := <["id" := VStr "m1"]> (message_row (device 0 u1) hi).

Definition follower (u : User) : obj := {[ "follower_id" := VStr (id u) ]}.

Definition storage_down : js_error := Error "connection refused".

(** Every service answers; [u1] is followed by [u2]. *)
Definition all_well : oracle :=
  services (success (Some (Some u1))) (success (Some stored_hi))
           (success tt) (success (Some [follower u2])).

(** The verifier knows no user for the credential. *)
Definition no_such_user : oracle :=
  services (failure (Some None) (Error "invalid JWT")) (success (Some stored_hi))
           (success tt) (success (Some [])).

(** The messages table cannot be written. *)
Definition messages_down : oracle :=
  services (success (Some (Some u3))) (failure None storage_down)
           (success tt) (success (Some [])).

(** [u2] types in the chat with themselves, on one of their devices. *)
Definition saved_messages : obj := {[ "chatId" := VStr "u2" ]}.

Definition first_post : obj := {[ "id" := VStr "p1"; "content" := VStr "salom" ]}.

(** The verifier vouches for [u]; the storage answers. *)
Definition vouches_for (u : User) : oracle :=
  services (success (Some (Some u))) (success (Some stored_hi))
           (success tt) (success (Some [])).

(** [u2] connects two devices, then the first one goes away. *)
Definition second_device_stays : list input :=
  [ Connect (VStr "jwt-u2"); Settle 0 (vouches_for u2);
    Connect (VStr "jwt-u2"); Settle 1 (vouches_for u2);
    Close 0 ].

(** [u1] and [u2] connect, [u1] says hi to [u2] and leaves. *)
Definition a_conversation : list input :=
  [ Connect (VStr "jwt-u1"); Settle 0 (vouches_for u1);
    Connect (VStr "jwt-u2"); Settle 1 (vouches_for u2);
    Inbound 0 (send_message hi); Settle 2 all_well; Settle 3 all_well;
    Close 0 ].

(** [u2] and [u3] are connected; [u3] writes to [u2] while the messages
    table cannot be written. *)
Definition an_outage : list input :=
  [ Connect (VStr "jwt-u2"); Settle 0 (vouches_for u2);
    Connect (VStr "jwt-u3"); Settle 1 (vouches_for u3);
    Inbound 1 (send_message hi); Settle 2 messages_down ].

(** As [an_outage], but [u3] goes away while the storage has not answered
    yet. *)
Definition a_sender_who_left : list input :=
  [ Connect (VStr "jwt-u2"); Settle 0 (vouches_for u2);
    Connect (VStr "jwt-u3"); Settle 1 (vouches_for u3);
    Inbound 1 (send_message hi); Close 1; Settle 2 messages_down ].

(** ** What the gateway keeps true *)

(** A connection that is in the room of its user and in no other. *)
Definition own_room (x : socket) : Prop :=
  rooms x = {[ user_room (VStr (id (user x))) ]}.

(** ** The analytics routes

    Of [routes/analytics.js]: the block of [GET /stats] that calculates the
    daily engagement, and [GET /user/:userId/activity] from the point
    where its query has settled.  An object literal used as a map is the
    list of its own properties in the order they were created, with what
    JavaScript adds to that: the names every object inherits from
    [Object.prototype], [__proto__], and the index-like names that
    [Object.values] lists first.  The texts of the errors the engine
    throws are V8's. *)
Module analytics.

(** [s.split('T')[0]]: what comes before the first [T]. *)
Fixpoint split_T_0 (s : string) : string :=
  match s with
  | EmptyString => EmptyString
  | String c s' => if Ascii.eqb c "T"%char then EmptyString else String c (split_T_0 s')
  end.

(** [item.created_at.split('T')[0]], where [var] is the name the code
    gives the item; only a string has [split]. *)
Definition day_of (var : string) (item : obj) : js_error + string :=
  match get item "created_at" with
  | VStr s => inr (split_T_0 s)
  | VUndefined =>
      inl (TypeError "Cannot read properties of undefined (reading 'split')")
  | VNull =>
      inl (TypeError "Cannot read properties of null (reading 'split')")
  | VBool _ =>
      inl (TypeError (var +:+ ".created_at.split is not a function"))
  end.

(** The property names every object literal inherits from
    [Object.prototype]. *)
Definition inherited : list string :=
  [ "constructor"; "__defineGetter__"; "__defineSetter__"; "hasOwnProperty";
    "__lookupGetter__"; "__lookupSetter__"; "isPrototypeOf";
    "propertyIsEnumerable"; "toString"; "valueOf"; "__proto__";
    "toLocaleString" ].

(** The index a property name stands for, if it is the canonical decimal
    form of an integer below 2^32 - 1: such properties are enumerated
    first, in ascending order. *)
Definition digit (c : ascii) : option N :=
  let n := N_of_ascii c in
  if (48 <=? n)%N && (n <=? 57)%N then Some (n - 48)%N else None.

Fixpoint digits (acc : N) (s : string) : option N :=
  match s with
  | EmptyString => Some acc
  | String c s' =>
      match digit c with
      | Some d => digits (10 * acc + d)%N s'
      | None => None
      end
  end.

Definition array_index (k : string) : option N :=
  match k with
  | EmptyString => None
  | String "0"%char EmptyString => Some 0%N
  | String "0"%char _ => None
  | _ =>
      if 10 <? String.length k then None
      else match digits 0 k with
           | Some n => if (n <? 4294967295)%N then Some n else None
           | None => None
           end
  end.

(** An object as its own properties in creation order. *)
Fixpoint own {V} (o : list (string * V)) (k : string) : option V :=
  match o with
  | [] => None
  | (k', v) :: o' => if String.eqb k' k then Some v else own o' k
  end.

(** [o[k] = v] for a property [o] has or a plain new one. *)
Fixpoint put {V} (o : list (string * V)) (k : string) (v : V) : list (string * V) :=
  match o with
  | [] => [(k, v)]
  | (k', v') :: o' =>
      if String.eqb k' k then (k', v) :: o' else (k', v') :: put o' k v
  end.

Definition indexed {V} (o : list (string * V)) : list (N * V) :=
  omap (λ kv, n ← array_index kv.1; Some (n, kv.2)) o.

Definition named {V} (o : list (string * V)) : list V :=
  omap (λ kv, match array_index kv.1 with Some _ => None | None => Some kv.2 end) o.

Definition by_index {V} (a b : N * V) : Prop := (a.1 ≤ b.1)%N.

#[global] Instance by_index_dec {V} : RelDecision (@by_index V).
Proof. intros a b. unfold by_index. apply _. Defined.

(** [Object.values(o)]: the values of the index-like properties in
    ascending order, then the others in creation order. *)
Definition object_values {V} (o : list (string * V)) : list V :=
  (snd <$> merge_sort by_index (indexed o)) ++ named o.

(** *** [GET /stats]: the block that calculates the daily engagement *)

(** What a property of [dailyEngagement] holds: a number, or the string
    that [+ 1] makes of anything else. *)
Inductive tally := Count (n : nat) | Text.

(** [dailyEngagement[date] = (dailyEngagement[date] || 0) + 1] *)
Definition bump (o : list (string * tally)) (date : string) : list (string * tally) :=
  match own o date with
  | Some (Count n) => put o date (Count (S n))
  | Some Text => put o date Text
  | None =>
      if bool_decide (date = "__proto__") then o
      else if bool_decide (date ∈ inherited) then put o date Text
      else put o date (Count 1)
  end.

Fixpoint tally_all (o : list (string * tally)) (items : list obj)
    : js_error + list (string * tally) :=
  match items with
  | [] => inr o
  | item :: items' =>
      match day_of "item" item with
      | inl e => inl e
      | inr date => tally_all (bump o date) items'
      end
  end.

(** [[...likesData, ...commentsData].forEach(...)]; [null] cannot be
    spread. *)
Definition daily_engagement (likesData commentsData : option (list obj))
    : js_error + list (string * tally) :=
  match likesData, commentsData with
  | Some likes, Some comments => tally_all [] (likes ++ comments)
  | _, _ => inl (TypeError "object null is not iterable (cannot read property Symbol(Symbol.iterator))")
  end.

(** *** [GET /user/:userId/activity] *)

Record group := { date : string; activities : list obj; count : nat }.

(** The body of [activities.forEach(activity => ...)]. *)
Definition file (byDate : list (string * group)) (activity : obj)
    : js_error + list (string * group) :=
  match day_of "activity" activity with
  | inl e => inl e
  | inr d =>
      match own byDate d with
      | Some g =>
          inr (put byDate d {| date := date g;
                               activities := activities g ++ [activity];
                               count := S (count g) |})
      | None =>
          if bool_decide (d ∈ inherited)
          then inl (TypeError "Cannot read properties of undefined (reading 'push')")
          else inr (put byDate d {| date := d; activities := [activity]; count := 1 |})
      end
  end.

Fixpoint file_all (byDate : list (string * group)) (l : list obj)
    : js_error + list (string * group) :=
  match l with
  | [] => inr byDate
  | activity :: l' =>
      match file byDate activity with
      | inl e => inl e
      | inr byDate' => file_all byDate' l'
      end
  end.

(** A query parameter is a string or absent; the empty string is falsy. *)
Definition given (p : option string) : option string :=
  match p with
  | Some s => if String.eqb s "" then None else Some s
  | None => None
  end.

Inductive body :=
  | activity_report (userId : string) (totalActivities : nat)
      (timeline : list group) (period_start period_end : string)
  | error_report (error : string).

Record reply := {
  status : nat;
  json : body;
  console_error : list (string * js_error)
}.

(** The handler from the point where the query has settled. *)
Definition user_activity (userId : string) (startDate endDate : option string)
    (s : settlement (response (option (list obj)))) : reply :=
  let caught (e : js_error) :=
    {| status := 500; json := error_report "Failed to fetch user activity";
       console_error := [("User activity error:", e)] |} in
  match s with
  | Rejected e => caught e
  | Fulfilled r =>
      match error r with
      | Some e => caught e
      | None =>
          match data r with
          | None => caught (TypeError "Cannot read properties of null (reading 'forEach')")
          | Some activities =>
              match file_all [] activities with
              | inl e => caught e
              | inr byDate =>
                  {| status := 200;
                     json := activity_report userId (length activities)
                               (object_values byDate)
                               (default "beginning" (given startDate))
                               (default "now" (given endDate));
                     console_error := [] |}
              end
          end
      end
  end.

(** The day of a row, the rows of a day and the days in the order in
    which they first occur: used to say what the handlers compute. *)
Definition day (a : obj) : string :=
  match get a "created_at" with VStr s => split_T_0 s | _ => EmptyString end.

Definition on_day (d : string) (l : list obj) : list obj :=
  List.filter (λ a, String.eqb (day a) d) l.

Fixpoint first_seen (l : list string) : list string :=
  match l with
  | [] => []
  | x :: l' => x :: List.filter (λ y, negb (String.eqb y x)) (first_seen l')
  end.

Definition dated (a : obj) : Prop :=
  ∃ s, get a "created_at" = VStr s.

(** The group of day [d] among the activities [l]. *)
Definition grouped (l : list obj) (d : string) : group :=
  {| date := d; activities := on_day d l; count := length (on_day d l) |}.

Definition fileable (a : obj) : Prop := dated a ∧ day a ∉ inherited.

Definition figure (t : tally) : nat :=
  match t with Count n => n | Text => 0 end.

End analytics.

(** ** The operations scripts

    The scripts run under [set -e].  A script is a function from the
    events so far to the events it adds and either a value, with which it
    goes on, or the status with which it has exited.  What the commands a
    script calls do is taken from the host: the status each one returns
    and what it prints. *)
Module shell.

Definition sh (E A : Type) : Type := list E → list E * (A + nat).

Definition ret {E A} (a : A) : sh E A := λ t, (t, inl a).

Definition bind {E A B} (p : sh E A) (f : A → sh E B) : sh E B :=
  λ t, match p t with
       | (t', inl a) => f a t'
       | (t', inr n) => (t', inr n)
       end.

#[global] Instance sh_ret {E} : MRet (sh E) := @ret E.
#[global] Instance sh_bind {E} : MBind (sh E) := λ A B f p, bind p f.

(** [exit n] *)
Definition exit {E A} (n : nat) : sh E A := λ t, (t, inr n).

Definition note {E} (e : E) : sh E unit := λ t, (t ++ [e], inl tt).

(** A command on a line of its own: under [set -e] a status other than 0
    ends the script with that status. *)
Definition errexit {E} (p : sh E nat) : sh E unit :=
  s ← p; match s with 0 => ret tt | S _ => exit s end.

(** [p || q] *)
Definition or_else {E} (p q : sh E nat) : sh E nat :=
  s ← p; match s with 0 => ret 0 | S _ => q end.

(** The events of a whole script and its exit status, which is that of
    the last command when no [exit] and no failure ended it. *)
Definition script {E} (p : sh E nat) : list E * nat :=
  match p [] with
  | (t, inl s) => (t, s)
  | (t, inr n) => (t, n)
  end.

(** The events that come before the first [c]. *)
Fixpoint before {E} `{EqDecision E} (c : E) (t : list E) : list E :=
  match t with
  | [] => []
  | x :: t' => if decide (x = c) then [] else x :: before c t'
  end.

(** The 64-bit integers of [$(( ))]. *)
Definition wrap64 (z : Z) : Z := ((z + 2 ^ 63) `mod` 2 ^ 64 - 2 ^ 63)%Z.

(** [DAYS_LEFT=$(( ($(date -d "$EXPIRY" +%s) - $(date +%s)) / 86400 ))],
    the line the renewal and the health check share.  [expiry] is what
    [date -d] prints, nothing when it cannot read the date; the status of
    the assignment is that of [date +%s], the last substitution. *)
Definition days_left (expiry : option Z) (now : Z) : Z :=
  (wrap64 (default 0 expiry - now) `quot` 86400)%Z.

End shell.

(** *** The renewal of the certificate

    The commands that act on the host are kept, in the order in which
    the script runs them; what it echoes is left out. *)
Module renew_ssl.
Import shell.

Inductive command :=
  | systemctl_stop_nginx
  | compose_stop_nginx
  | certbot_renew
  | cp_fullchain
  | cp_privkey
  | chmod_600
  | systemctl_start_nginx
  | compose_start_nginx
  | nginx_reload
  | cp_backup
  | curl_slack.

#[global] Instance command_eq_dec : EqDecision command.
Proof. solve_decision. Defined.

Record host := {
  certificate : bool;            (* [-f "$CERT_FILE"] *)
  expiry : option Z;             (* [date -d "$EXPIRY_DATE" +%s] *)
  clock : Z;                     (* [date +%s] *)
  slack_webhook : bool;          (* [$SLACK_WEBHOOK_URL] is not empty *)
  exit_status : command → nat
}.

Definition run (h : host) (c : command) : sh command nat :=
  λ t, (t ++ [c], inl (exit_status h c)).

(** The branch that renews. *)
Definition renew (h : host) : sh command nat :=
  errexit (or_else (run h systemctl_stop_nginx) (run h compose_stop_nginx));;
  errexit (run h certbot_renew);;
  errexit (run h cp_fullchain);;
  errexit (run h cp_privkey);;
  errexit (run h chmod_600);;
  errexit (or_else (run h systemctl_start_nginx) (run h compose_start_nginx));;
  errexit (run h nginx_reload);;
  errexit (run h cp_backup);;
  if slack_webhook h then run h curl_slack else mret 0.

Definition main (h : host) : list command * nat :=
  script (if negb (certificate h) then exit 1
          else if (days_left (expiry h) (clock h) <? 30)%Z then renew h
          else mret 0).

End renew_ssl.

(** *** The health check

    The events are the lines the script prints. *)
Module health_check.
Import shell.

(** The lines the script prints: progress, [✅], [⚠️] and [❌]. *)
Inductive line :=
  | progress (text : string)
  | container_running (c : string)
  | container_not_running (c : string)
  | healthy (what : string)
  | check_failed (what : string)
  | disk_space (used : Z)
  | disk_warning (used : Z)
  | memory_usage_ok (used : Z)
  | memory_warning (used : Z)
  | certificate_expires_in (days : Z)
  | certificate_warning (days : Z)
  | certificate_alarm (days : Z)
  | certificate_not_found
  | all_passed.

#[global] Instance line_eq_dec : EqDecision line.
Proof. solve_decision. Defined.

Definition alarm (l : line) : bool :=
  match l with
  | container_not_running _ | check_failed _ | certificate_alarm _ => true
  | _ => false
  end.

Record host := {
  running : string → bool;       (* [docker ps ... | grep -q "$container"] *)
  frontend : bool;               (* [curl -s -f http://localhost:3000/health] *)
  backend : bool;                (* [curl -s -f http://localhost:5000/health] *)
  database : bool;               (* [pg_isready] *)
  redis : bool;                  (* [redis-cli ping | grep -q "PONG"] *)
  disk_usage : Z;
  memory_usage : Z;
  certificate : bool;            (* [-f "/etc/nginx/ssl/xoleric.net.crt"] *)
  expiry : option Z;
  clock : Z
}.

Definition containers : list string :=
  [ "xoleric-frontend"; "xoleric-backend"; "xoleric-postgres"; "xoleric-redis";
    "xoleric-traefik" ].

Fixpoint check_containers (h : host) (cs : list string) : sh line unit :=
  match cs with
  | [] => mret tt
  | c :: cs' =>
      if running h c
      then note (container_running c);; check_containers h cs'
      else note (container_not_running c);; exit 1
  end.

Definition check (text what : string) (ok : bool) : sh line unit :=
  note (progress text);;
  if ok then note (healthy what) else note (check_failed what);; exit 1.

Definition check_certificate (h : host) : sh line unit :=
  note (progress "Checking SSL certificates...");;
  if certificate h then
    let DAYS_LEFT := days_left (expiry h) (clock h) in
    if (30 <? DAYS_LEFT)%Z then note (certificate_expires_in DAYS_LEFT)
    else if (7 <? DAYS_LEFT)%Z then note (certificate_warning DAYS_LEFT)
    else note (certificate_alarm DAYS_LEFT);; exit 1
  else note certificate_not_found.

Definition main (h : host) : list line * nat :=
  script (
    note (progress "Starting health checks...");;
    check_containers h containers;;
    check "Checking frontend health..." "Frontend" (frontend h);;
    check "Checking backend health..." "Backend" (backend h);;
    check "Checking database connection..." "Database" (database h);;
    check "Checking Redis..." "Redis" (redis h);;
    note (progress "Checking disk space...");;
    note (if (disk_usage h <? 90)%Z then disk_space (disk_usage h)
           else disk_warning (disk_usage h));;
    note (progress "Checking memory usage...");;
    note (if (memory_usage h <? 80)%Z then memory_usage_ok (memory_usage h)
           else memory_warning (memory_usage h));;
    check_certificate h;;
    note all_passed;;
    mret 0).

End health_check.

(** *** Scaling the backend

    The commands that act on the host and the line appended to the
    scaling log are kept; what the script echoes is left out.  [bc] is
    taken to compare the load average it is given. *)
Module scale_app.
Import shell.

Inductive event :=
  | scale_backend (replicas : Z)   (* [docker-compose up -d --scale backend=N] *)
  | patch_nginx_conf               (* [sed -i ... /etc/nginx/nginx.conf] *)
  | nginx_reload
  | log (cpu mem users current : Z) (new : option Z).

Record host := {
  env_production : bool;         (* [/opt/xoleric/.env.production] can be read *)
  cpu_load : Z;                  (* the load average, in hundredths *)
  memory_usage : Z;
  scard_status : nat;            (* [docker exec xoleric-redis redis-cli SCARD ...] *)
  active_users : Z;
  backend_up : nat;              (* the lines of [docker-compose ps backend] with [Up] *)
  exit_status : event → nat
}.

Definition run (h : host) (c : event) : sh event nat :=
  λ t, (t ++ [c], inl (exit_status h c)).

Definition SCALE_UP_CPU : Z := 200.
Definition SCALE_DOWN_CPU : Z := 50.
Definition SCALE_UP_USERS : Z := 1000.
Definition SCALE_DOWN_USERS : Z := 100.

Definition main (h : host) : list event * nat :=
  script (
    (if env_production h then mret tt else exit 1);;
    ACTIVE_USERS ← match scard_status h with
                   | 0 => mret (active_users h)
                   | S _ => exit (scard_status h)
                   end;
    (* [grep -c] returns 1 when it counts no line *)
    CURRENT_REPLICAS ← match backend_up h with
                       | 0 => exit 1
                       | S _ => mret (Z.of_nat (backend_up h))
                       end;
    NEW_REPLICAS ←
      (if (SCALE_UP_CPU <? cpu_load h)%Z || (SCALE_UP_USERS <? ACTIVE_USERS)%Z then
         let NEW_REPLICAS := wrap64 (CURRENT_REPLICAS + 1) in
         let NEW_REPLICAS := if (5 <? NEW_REPLICAS)%Z then 5%Z else NEW_REPLICAS in
         errexit (run h (scale_backend NEW_REPLICAS));;
         errexit (run h patch_nginx_conf);;
         errexit (run h nginx_reload);;
         mret (Some NEW_REPLICAS)
       else if (cpu_load h <? SCALE_DOWN_CPU)%Z && (ACTIVE_USERS <? SCALE_DOWN_USERS)%Z
               && (1 <? CURRENT_REPLICAS)%Z then
         let NEW_REPLICAS := wrap64 (CURRENT_REPLICAS - 1) in
         let NEW_REPLICAS := if (NEW_REPLICAS <? 1)%Z then 1%Z else NEW_REPLICAS in
         errexit (run h (scale_backend NEW_REPLICAS));;
         mret (Some NEW_REPLICAS)
       else mret None);
    errexit (run h (log (cpu_load h) (memory_usage h) ACTIVE_USERS
                        CURRENT_REPLICAS NEW_REPLICAS));;
    mret 0).

End scale_app.

(** *** Watching the lock files

    [check_lock_file], [check_conflicts] and the script called with
    [once].  An event is a line the script prints (the two lines of a
    warning or of the report of a merge conflict counting as one) or a
    [sleep]. *)
Module lock_monitor.
Import shell.

Inductive event :=
  | valid_and_readable (file : string)
  | invalid_json (file : string)
  | exists_and_readable (file : string)
  | not_readable (file : string)
  | does_not_exist (file : string)
  | failed_after_retries (file : string)
  | sleep (seconds : nat)
  | monitoring
  | checking_conflicts
  | both_locks (dir : string)
  | merge_conflict.

(** What the tests of the script find of a file. *)
Record file := {
  is_file : bool;                (* [-f] *)
  is_readable : bool;            (* [-r] *)
  is_json : bool                 (* [jq empty] *)
}.

Record host := {
  files : string → file;
  unmerged_lock : bool           (* [git status --porcelain | grep -q "^UU.*package-lock.json"] *)
}.

Definition LOCK_FILES : list string :=
  [ "frontend/package-lock.json"; "backend/package-lock.json"; "deploy.lock.json" ].

Definition MAX_RETRIES : nat := 3.

(** [[[ "$file" == *.json ]]] *)
Definition dot_json (file : string) : bool :=
  let n := String.length file in
  (5 <=? n) && String.eqb (String.substring (n - 5) 5 file) ".json".

(** One turn of the loop of [check_lock_file]: the status it returns
    with, or nothing when it falls through to the retry. *)
Definition check_once (h : host) (f : string) : sh event (option nat) :=
  if is_file (files h f) then
    if is_readable (files h f) then
      if dot_json f then
        if is_json (files h f)
        then note (valid_and_readable f);; mret (Some 0)
        else note (invalid_json f);; mret (Some 1)
      else note (exists_and_readable f);; mret (Some 0)
    else note (not_readable f);; mret (Some 1)
  else note (does_not_exist f);; mret (Some 1).

(** The loop, by the turns that are left of [MAX_RETRIES]. *)
Fixpoint retry (h : host) (f : string) (left : nat) : sh event nat :=
  match left with
  | 0 => note (failed_after_retries f);; mret 1
  | S left' =>
      r ← check_once h f;
      match r with
      | Some s => mret s
      | None => note (sleep 5);; retry h f left'
      end
  end.

Definition check_lock_file (h : host) (f : string) : sh event nat :=
  retry h f MAX_RETRIES.

(** A file that passes the check, and the line that says so. *)
Definition sound (h : host) (f : string) : bool :=
  is_file (files h f) && is_readable (files h f)
  && (negb (dot_json f) || is_json (files h f)).

Definition passed (f : string) : event :=
  if dot_json f then valid_and_readable f else exists_and_readable f.

Definition complaint (e : event) : bool :=
  match e with
  | invalid_json _ | not_readable _ | does_not_exist _ => true
  | _ => false
  end.

Definition check_conflicts (h : host) : sh event nat :=
  note checking_conflicts;;
  (if is_file (files h "frontend/package-lock.json")
      && is_file (files h "frontend/yarn.lock")
   then note (both_locks "frontend") else mret tt);;
  (if is_file (files h "backend/package-lock.json")
      && is_file (files h "backend/yarn.lock")
   then note (both_locks "backend") else mret tt);;
  if unmerged_lock h then note merge_conflict;; mret 1 else mret 0.

Fixpoint check_each (h : host) (fs : list string) : sh event unit :=
  match fs with
  | [] => mret tt
  | f :: fs' => errexit (check_lock_file h f);; check_each h fs'
  end.

(** The script called with [once]. *)
Definition once (h : host) : list event * nat :=
  script (note monitoring;; check_each h LOCK_FILES;; check_conflicts h).

End lock_monitor.

(** *** The deployment

    The commands the script runs, in their order; what it prints is left
    out, and the variables are what they are once [.env] is loaded. *)
Module deploy.
Import shell.

Inductive command :=
  | command_v_docker
  | command_v_docker_compose
  | command_v_node
  | mkdir_ssl
  | openssl_req
  | mkdir_backup
  | pg_dump
  | gzip_backup
  | find_old_backups
  | build_frontend
  | build_backend
  | tag_frontend
  | tag_backend
  | push_frontend
  | push_backend
  | compose_down
  | compose_pull
  | compose_up
  | sleep_30
  | curl_frontend
  | curl_backend
  | pg_isready
  | psql_migrations.

#[global] Instance command_eq_dec : EqDecision command.
Proof. solve_decision. Defined.

Record host := {
  production : bool;             (* [$ENVIRONMENT] is [production] *)
  ssl_key : bool;                (* [-f ssl/xoleric.key] *)
  ssl_crt : bool;                (* [-f ssl/xoleric.crt] *)
  registry : bool;               (* [$DOCKER_REGISTRY] is not empty *)
  exit_status : command → nat
}.

Definition run (h : host) (c : command) : sh command nat :=
  λ t, (t ++ [c], inl (exit_status h c)).

(** [c || { print_error ...; exit 1; }] and
    [if c; then print_message ...; else print_error ...; exit 1; fi] *)
Definition or_exit_1 (p : sh command nat) : sh command unit :=
  s ← p; match s with 0 => mret tt | S _ => exit 1 end.

Definition check_dependencies (h : host) : sh command unit :=
  or_exit_1 (run h command_v_docker);;
  or_exit_1 (run h command_v_docker_compose);;
  or_exit_1 (run h command_v_node).

Definition build_images (h : host) : sh command unit :=
  errexit (run h build_frontend);;
  errexit (run h build_backend);;
  if registry h then
    errexit (run h tag_frontend);;
    errexit (run h tag_backend);;
    errexit (run h push_frontend);;
    errexit (run h push_backend)
  else mret tt.

Definition run_migrations (h : host) : sh command unit :=
  errexit (run h psql_migrations).

Definition check_service_health (h : host) : sh command unit :=
  or_exit_1 (run h curl_frontend);;
  or_exit_1 (run h curl_backend);;
  or_exit_1 (run h pg_isready).

Definition deploy_services (h : host) : sh command unit :=
  errexit (run h compose_down);;
  (if registry h then errexit (run h compose_pull) else mret tt);;
  errexit (run h compose_up);;
  errexit (run h sleep_30);;
  check_service_health h.

Definition setup_ssl (h : host) : sh command unit :=
  if production h then
    errexit (run h mkdir_ssl);;
    if negb (ssl_key h) || negb (ssl_crt h)
    then errexit (run h openssl_req)
    else mret tt
  else mret tt.

Definition backup_database (h : host) : sh command unit :=
  errexit (run h mkdir_backup);;
  errexit (run h pg_dump);;
  errexit (run h gzip_backup);;
  errexit (run h find_old_backups).

Definition main (h : host) : list command * nat :=
  script (
    check_dependencies h;;
    setup_ssl h;;
    (if production h then backup_database h else mret tt);;
    build_images h;;
    deploy_services h;;
    run_migrations h;;
    mret 0).

End deploy.

(** ** Basic facts *)

Lemma count_occ_NoDup (l : list nat) (c : nat) :
  NoDup l →
  count_occ Nat.eq_dec l c = if bool_decide (c ∈ l) then 1 else 0.
Proof.
  induction 1 as [|x l Hx Hl IH]; cbn [count_occ].
  - by rewrite bool_decide_eq_false_2 by apply not_elem_of_nil.
  - destruct (Nat.eq_dec x c) as [->|Hne].
    + rewrite bool_decide_eq_true_2 by left.
      rewrite IH, bool_decide_eq_false_2; done.
    + rewrite IH.
      replace (bool_decide (c ∈ x :: l)) with (bool_decide (c ∈ l)); [done|].
      apply bool_decide_ext. rewrite elem_of_cons.
      split; [by right | by intros [->|]].
Qed.

Lemma NoDup_fmap_sid_filter (f : socket → bool) (l : list socket) :
  NoDup (sid <$> l) → NoDup (sid <$> List.filter f l).
Proof.
  induction l as [|x l IH]; simpl; [done|].
  rewrite NoDup_cons. intros [Hx Hl].
  destruct (f x); simpl; [|by apply IH].
  apply NoDup_cons. split; [|by apply IH].
  intros Hin. apply Hx.
  apply list_elem_of_fmap in Hin as (y & -> & Hy).
  apply list_elem_of_fmap. exists y. split; [done|].
  apply list_elem_of_In, filter_In in Hy as [Hy _].
  by apply list_elem_of_In.
Qed.

Lemma NoDup_bound (room : string) (σ : state) :
  NoDup (sid <$> sockets σ) → NoDup (bound room σ).
Proof. apply NoDup_fmap_sid_filter. Qed.

(** A connection is bound to a room exactly when a socket of the
    namespace with that id has joined it. *)
Lemma elem_of_bound (room : string) (σ : state) (c : nat) :
  c ∈ bound room σ ↔ ∃ x, x ∈ sockets σ ∧ sid x = c ∧ room ∈ rooms x.
Proof.
  unfold bound, recipients_of. rewrite list_elem_of_fmap. split.
  - intros (x & -> & Hx). apply list_elem_of_In, filter_In in Hx as [Hx Hr].
    exists x. split; [by apply list_elem_of_In|]. split; [done|].
    by apply bool_decide_eq_true_1 in Hr.
  - intros (x & Hx & <- & Hr). exists x. split; [done|].
    apply list_elem_of_In, filter_In. split; [by apply list_elem_of_In|].
    by apply bool_decide_eq_true_2.
Qed.

Lemma user_room_inj (a b : string) :
  user_room (VStr a) = user_room (VStr b) → a = b.
Proof. unfold user_room. simpl. intros H. by simplify_eq. Qed.

(** For string ids, the channel of a follower row is a user's channel
    exactly when the row names that user. *)
Lemma follower_channel_own (f : obj) (a b : string) :
  get f "follower_id" = VStr a →
  user_room (get f "follower_id") = user_room (VStr b) ↔ a = b.
Proof.
  intros ->. split; [apply user_room_inj | by intros ->].
Qed.

(** ** Message relay: the [send_message] handler *)

Section message_relay.
Context (me : socket) (messageData : obj) (ω : oracle) (σ0 σ1 σ2 : state).

Local Abbreviation row := (message_row me messageData).
Local Abbreviation r := (run (on_send_message me messageData) ω σ0 [σ1; σ2]).

(** The handler always starts by submitting the row, and nothing else
    happens until the storage has answered. *)
Lemma send_message_starts_with_the_insert :
  ∃ k, exec (on_send_message me messageData) σ0
       = (σ0, [ORequest (insert_message row)], Suspended (insert_message row) k).
Proof. by eexists. Qed.

(** The stamped row: the connection's identity, whatever the payload says. *)
Lemma message_row_sender :
  get row "sender_id" = VStr (id (user me)).
Proof. unfold get, message_row. by rewrite lookup_insert_eq. Qed.

Lemma message_row_other (k : string) :
  k ≠ "sender_id" → get row k = get messageData k.
Proof. intros Hk. unfold get, message_row. by rewrite lookup_insert_ne. Qed.

(** However the storage answers and however far the handler gets, it
    submits one row to the messages table, the stamped one. *)
Lemma one_insert_per_send_message (later : list state) :
  List.filter is_insert_message
      (requests (trace (run (on_send_message me messageData) ω σ0 later)))
    = [insert_message row].
Proof.
  destruct later as [|σa [|σb later']]; cbn; [done| |];
    destruct (ω (insert_message row)) as [[[m|] [e|]]|e]; cbn; try done;
    by destruct (ω (insert_notification _)) as [[[] [e|]]|e], later'.
Qed.

(** C1. For a [send_message] event with a valid receiver id, whatever its
    content: the handler submits exactly one row to the messages table,
    and until the storage has answered it has done nothing else; when the
    persistence step fails no [new_message] is ever emitted; when the
    storage answers with the stored message [m] (which carries its
    assigned id), one [new_message] carrying [m] is emitted to the
    receiver's channel and reaches each connection bound to it at that
    moment exactly once, and nobody when none is bound; the notification
    write comes after, and the handler finishes however that write
    settles. *)
Theorem send_message_persists_then_delivers (m : obj) (receiver : string) :
  get messageData "receiver_id" = VStr receiver →
  let channel := user_room (VStr receiver) in
  (∀ later,
     List.filter is_insert_message
         (requests (trace (run (on_send_message me messageData) ω σ0 later)))
       = [insert_message row])
  ∧ (exec (on_send_message me messageData) σ0).1
    = (σ0, [ORequest (insert_message row)])
  ∧ (failed (ω (insert_message row)) = true →
     emitted "new_message" (trace r) = [])
  ∧ (ω (insert_message row) = success (Some m) →
     ∃ tr2,
       r = ([ (σ0, [ORequest (insert_message row)]);
              (σ1, [OEmit (ToRoom channel) "new_message" (PObj m) (bound channel σ1);
                    ORequest (insert_notification
                                (notification_row me messageData (get m "id") (now σ1)))]);
              (σ2, tr2) ],
            Finished tt)
       ∧ emitted "new_message" (trace r) = [(ToRoom channel, PObj m, bound channel σ1)]
       ∧ (bound channel σ1 = [] → received "new_message" (trace r) = [])
       ∧ (NoDup (sid <$> sockets σ1) →
          ∀ c, deliveries "new_message" c (trace r)
               = if bool_decide (c ∈ bound channel σ1) then 1 else 0)).
Proof.
  intros Hreceiver channel.
  split; [apply one_insert_per_send_message|]. split; [done|]. split.
  - intros Hfailed. cbn.
    by destruct (ω (insert_message row)) as [[message [e|]]|e].
  - intros Hω. cbn. rewrite Hω. cbn. rewrite Hreceiver. fold channel.
    destruct (ω (insert_notification _)) as [[[] [notifError|]]|e]; cbn;
      (eexists; split; [reflexivity|]); (split; [done|]);
      (split; [intros Hnone; fold (bound channel σ1); by rewrite Hnone|]);
      intros Hids c; fold (bound channel σ1); rewrite app_nil_r;
      by apply count_occ_NoDup, NoDup_bound.
Qed.

(** C2. When the persistence step fails (the insert rejects, or resolves
    with [error] set), the handler logs it and emits one [error] event
    with [socket.emit], so to the sender's connection and no other; no
    [new_message] is emitted, no notification row is submitted, and the
    handler is over.  The sender is the connection the event came from:
    if it is still connected when the failure is known ([σ1] is the
    namespace at that moment), it receives the [error] event exactly
    once; if it has left in the meantime, nobody receives anything. *)
Theorem failed_persistence_reaches_only_the_sender :
  failed (ω (insert_message row)) = true →
  ∃ e,
    r = ([ (σ0, [ORequest (insert_message row)]);
           (σ1, [OLog "error" "Message send error:" (Some e);
                 OEmit (ToSocket (sid me)) "error" send_failed
                   (recipients_of (ToSocket (sid me)) σ1)]) ],
         Finished tt)
    ∧ emitted "new_message" (trace r) = []
    ∧ List.filter is_insert_notification (requests (trace r)) = []
    ∧ (∀ c, c ≠ sid me → deliveries "error" c (trace r) = 0)
    ∧ (sid me ∈ sid <$> sockets σ1 →
       emitted "error" (trace r) = [(ToSocket (sid me), send_failed, [sid me])]
       ∧ deliveries "error" (sid me) (trace r) = 1)
    ∧ (sid me ∉ sid <$> sockets σ1 →
       emitted "error" (trace r) = [(ToSocket (sid me), send_failed, [])]
       ∧ ∀ c, deliveries "error" c (trace r) = 0).
Proof.
  intros Hfailed.
  assert (Hr : ∃ e,
    r = ([ (σ0, [ORequest (insert_message row)]);
           (σ1, [OLog "error" "Message send error:" (Some e);
                 OEmit (ToSocket (sid me)) "error" send_failed
                   (recipients_of (ToSocket (sid me)) σ1)]) ],
         Finished tt)).
  { cbn. destruct (ω (insert_message row)) as [[message [e|]]|e]; try done;
      by exists e. }
  destruct Hr as [e Hr]. exists e. split; [exact Hr|]. rewrite Hr.
  unfold deliveries, received. cbn. rewrite app_nil_r.
  split; [done|]. split; [done|]. split; [|split].
  - intros c Hc. case_bool_decide; cbn; [|done].
    by destruct (Nat.eq_dec (sid me) c) as [<-|_].
  - intros Hlive. rewrite !(bool_decide_eq_true_2 _ Hlive). cbn.
    split; [done|]. by destruct (Nat.eq_dec (sid me) (sid me)).
  - intros Hgone. by rewrite !(bool_decide_eq_false_2 _ Hgone).
Qed.

(** The sender id a payload carries is overwritten: payloads that agree
    everywhere else are stamped into the same row. *)
Lemma message_row_ignores_supplied_sender (other : obj) :
  delete "sender_id" other = delete "sender_id" messageData →
  message_row me other = row.
Proof.
  intros Hsame. unfold message_row.
  by rewrite <- (insert_delete_eq other), <- (insert_delete_eq messageData), Hsame.
Qed.

(** A notification write that resolves with [error] set is logged for the
    operator and that is all: nothing is emitted, nothing is undone. *)
Lemma reported_notification_failure_is_only_logged (m : obj) (notifError : js_error) :
  ω (insert_message row) = success (Some m) →
  ω (insert_notification
       (notification_row me messageData (get m "id") (now σ1)))
    = failure tt notifError →
  let channel := user_room (get messageData "receiver_id") in
  r = ([ (σ0, [ORequest (insert_message row)]);
         (σ1, [OEmit (ToRoom channel) "new_message" (PObj m) (bound channel σ1);
               ORequest (insert_notification
                           (notification_row me messageData (get m "id") (now σ1)))]);
         (σ2, [OLog "error" "Notification error:" (Some notifError)]) ],
       Finished tt).
Proof. intros Hm Hn. cbn. rewrite Hm. cbn. by rewrite Hn. Qed.

(** C7, where the handler falls short of it. The notification write sits
    in the same [try] as the persistence step, so when the awaited write
    rejects, the shared [catch] runs: after the message was stored and
    delivered, the sender is sent the [error] event
    "Failed to send message" (it reaches the sender's connection as long
    as that is still in the namespace, like every [socket.emit]). *)
Theorem rejected_notification_write_reaches_the_sender
    (m : obj) (e : js_error)
    (verifier : settlement (response (option (option User))))
    (follows : settlement (response (option (list obj)))) :
  let channel := user_room (get messageData "receiver_id") in
  run (on_send_message me messageData)
      (services verifier (success (Some m)) (Rejected e) follows) σ0 [σ1; σ2]
  = ([ (σ0, [ORequest (insert_message row)]);
       (σ1, [OEmit (ToRoom channel) "new_message" (PObj m) (bound channel σ1);
             ORequest (insert_notification
                         (notification_row me messageData (get m "id") (now σ1)))]);
       (σ2, [OLog "error" "Message send error:" (Some e);
             OEmit (ToSocket (sid me)) "error" send_failed
               (recipients_of (ToSocket (sid me)) σ2)]) ],
     Finished tt)
  ∧ (sid me ∈ sid <$> sockets σ2 →
     recipients_of (ToSocket (sid me)) σ2 = [sid me]).
Proof.
  split; [reflexivity|].
  intros Hlive. cbn. by rewrite bool_decide_eq_true_2.
Qed.
End message_relay.

(** C6. Whatever the payload says about the sender, the one row the
    handler submits to the messages table has the identity bound to the
    connection as its [sender_id]; two payloads that differ only in a
    supplied [sender_id] lead to the same submitted row. *)
Theorem sender_id_comes_from_the_connection
    (me : socket) (messageData other : obj) (ω : oracle) (σ : state)
    (later : list state) :
  delete "sender_id" other = delete "sender_id" messageData →
  let submitted d :=
    List.filter is_insert_message
      (requests (trace (run (on_send_message me d) ω σ later))) in
  submitted messageData = [insert_message (message_row me messageData)]
  ∧ get (message_row me messageData) "sender_id" = VStr (id (user me))
  ∧ submitted other = submitted messageData.
Proof.
  intros Hsame submitted. subst submitted. cbv beta.
  rewrite !one_insert_per_send_message.
  split; [done|]. split; [apply message_row_sender|].
  by rewrite (message_row_ignores_supplied_sender me messageData other).
Qed.

Lemma lobby_ids_distinct : NoDup (sid <$> sockets lobby).
Proof. apply (bool_decide_unpack _). by vm_compute. Defined.

Lemma send_message_persists_then_delivers_hi :
  let tr := trace (run (on_send_message (device 0 u1) hi) all_well lobby [lobby; lobby]) in
  deliveries "new_message" 0 tr = 0
  ∧ deliveries "new_message" 1 tr = 1
  ∧ deliveries "new_message" 2 tr = 1.
Proof.
  destruct (send_message_persists_then_delivers (device 0 u1) hi all_well
              lobby lobby lobby stored_hi "u2" eq_refl)
    as (_ & _ & _ & Hdelivers).
  destruct (Hdelivers eq_refl) as (tr2 & _ & _ & _ & Hcount).
  cbv zeta. rewrite !(Hcount lobby_ids_distinct). by vm_compute.
Defined.

Lemma failed_persistence_reaches_only_the_sender_u1 :
  let tr := trace (run (on_send_message (device 0 u1) hi) messages_down lobby [lobby; lobby]) in
  emitted "new_message" tr = []
  ∧ deliveries "error" 0 tr = 1
  ∧ deliveries "error" 1 tr = 0.
Proof.
  destruct (failed_persistence_reaches_only_the_sender (device 0 u1) hi messages_down
              lobby lobby lobby eq_refl)
    as (e & _ & Hnone & _ & Hothers & Hlive & _).
  assert (Hin : sid (device 0 u1) ∈ sid <$> sockets lobby).
  { apply (bool_decide_unpack _). by vm_compute. }
  destruct (Hlive Hin) as [_ Hone].
  cbv zeta. split; [exact Hnone|]. split; [exact Hone|].
  by apply Hothers.
Defined.

Lemma sender_id_comes_from_the_connection_u1 :
  let submitted d :=
    List.filter is_insert_message
      (requests (trace (run (on_send_message (device 0 u1) d) all_well lobby
                          [lobby; lobby]))) in
  get (message_row (device 0 u1) hi) "sender_id" = VStr "u1"
  ∧ submitted (<["sender_id" := VStr "u2"]> hi) = submitted hi.
Proof.
  assert (Hsame : delete "sender_id" (<["sender_id" := VStr "u2"]> hi)
                  = delete "sender_id" hi) by (vm_compute; reflexivity).
  destruct (sender_id_comes_from_the_connection (device 0 u1) hi
              (<["sender_id" := VStr "u2"]> hi) all_well lobby [lobby; lobby] Hsame)
    as (_ & Hid & Hrow).
  split; [exact Hid | exact Hrow].
Defined.

(** ** Fan-out: the [new_post] handler *)

Lemma exec_for_each_emit {X} (l : list X) (t : X → target) (ev : string)
    (p : X → payload) (h : js_error → prog unit) (σ : state) :
  exec (try_catch (for_each l (λ x, act (emit (t x) ev (p x)))) h) σ
  = (σ, (λ x, OEmit (t x) ev (p x) (recipients_of (t x) σ)) <$> l, Finished tt).
Proof.
  induction l as [|x l IH]; [done|].
  cbn. cbn in IH. by rewrite IH.
Qed.

Lemma emitted_fmap_emit {X} (l : list X) (t : X → target) (ev : string)
    (p : X → payload) (rs : X → list nat) :
  emitted ev ((λ x, OEmit (t x) ev (p x) (rs x)) <$> l)
  = (λ x, (t x, p x, rs x)) <$> l.
Proof.
  induction l as [|x l IH]; [done|].
  cbn. rewrite String.eqb_refl. f_equal. apply IH.
Qed.

Lemma elem_of_concat_fmap {X} (l : list X) (g : X → list nat) (c : nat) :
  c ∈ concat (g <$> l) ↔ ∃ x, x ∈ l ∧ c ∈ g x.
Proof.
  induction l as [|x l IH]; cbn.
  - split; [by intros ?%elem_of_nil | by intros (? & ?%elem_of_nil & _)].
  - rewrite elem_of_app, IH. split.
    + intros [Hc|(y & Hy & Hc)]; [exists x | exists y];
        (split; [|done]); [by left | by right].
    + intros (y & [->|Hy]%elem_of_cons & Hc); [by left | right; by exists y].
Qed.

Section fan_out.
Context (me : socket) (post : obj) (ω : oracle) (σ0 σ1 : state).

Local Abbreviation r := (run (on_new_post me post) ω σ0 [σ1]).
Local Abbreviation channel :=
  (λ follower : obj, user_room (get follower "follower_id")).

(** C5. When the follower query answers with the rows [followers], the
    handler emits one [new_post_notification] carrying the post and the
    author per row, to that follower's channel: the emissions are exactly
    those, a connection is reached exactly when it is bound to the channel
    of one of the followers, and the author's own channel is addressed
    only if it is the channel of one of them. *)
Theorem new_post_fans_out_to_the_followers
    (followers : list obj) (err : option js_error) :
  ω (select_followers (id (user me)))
    = Fulfilled {| data := Some followers; error := err |} →
  r = ([ (σ0, [ORequest (select_followers (id (user me)))]);
         (σ1, (λ f, OEmit (ToRoom (channel f)) "new_post_notification"
                      (PPost post (user me)) (bound (channel f) σ1)) <$> followers) ],
       Finished tt)
  ∧ emitted "new_post_notification" (trace r)
    = (λ f, (ToRoom (channel f), PPost post (user me), bound (channel f) σ1))
        <$> followers
  ∧ (∀ c, c ∈ received "new_post_notification" (trace r)
          ↔ ∃ f, f ∈ followers ∧ c ∈ bound (channel f) σ1)
  ∧ ((∀ f, f ∈ followers → channel f ≠ user_room (VStr (id (user me)))) →
     ∀ p rs, (ToRoom (user_room (VStr (id (user me)))), p, rs)
               ∉ emitted "new_post_notification" (trace r)).
Proof.
  intros Hω.
  assert (Hrun : r = ([ (σ0, [ORequest (select_followers (id (user me)))]);
         (σ1, (λ f, OEmit (ToRoom (channel f)) "new_post_notification"
                      (PPost post (user me)) (bound (channel f) σ1)) <$> followers) ],
       Finished tt)).
  { cbn. rewrite Hω. cbn. destruct followers as [|f fs]; [done|].
    cbn [length].
    by rewrite (exec_for_each_emit (f :: fs) (λ f, ToRoom (channel f))). }
  assert (Hemitted : emitted "new_post_notification" (trace r)
    = (λ f, (ToRoom (channel f), PPost post (user me), bound (channel f) σ1))
        <$> followers).
  { rewrite Hrun. unfold trace. cbn [fst snd fmap list_fmap concat app].
    rewrite app_nil_r. cbn [emitted omap list_omap emission].
    apply (emitted_fmap_emit followers (λ f, ToRoom (channel f))). }
  split; [exact Hrun|]. split; [exact Hemitted|]. split.
  - intros c. unfold received. rewrite Hemitted, <- list_fmap_compose.
    apply elem_of_concat_fmap.
  - intros Hnot p rs. rewrite Hemitted.
    intros (f & Hf & Hin)%list_elem_of_fmap.
    apply (Hnot f Hin). cbv beta in Hf. congruence.
Qed.

(** A follower query that rejects is caught and logged; nothing is
    emitted. *)
Lemma rejected_follower_query_is_logged (e : js_error) :
  ω (select_followers (id (user me))) = Rejected e →
  r = ([ (σ0, [ORequest (select_followers (id (user me)))]);
         (σ1, [OLog "error" "Post notification error:" (Some e)]) ],
       Finished tt).
Proof. intros Hω. cbn. by rewrite Hω. Qed.

(** However the follower query fails, no [new_post_notification] goes out. *)
Lemma failed_follower_query_delivers_nothing (e : js_error) :
  ω (select_followers (id (user me))) = Rejected e
  ∨ ω (select_followers (id (user me))) = failure None e →
  emitted "new_post_notification" (trace r) = [].
Proof. intros [Hω|Hω]; cbn; by rewrite Hω. Qed.

(** C8, where the handler falls short of it. The handler reads only
    [data] from the answer of the follower query: when the query resolves
    with [error] set and no data, nothing is delivered, but nothing is
    logged either; the [catch] that logs is only reached by a rejection. *)
Theorem failed_follower_query_goes_unreported
    (e : js_error)
    (verifier : settlement (response (option (option User))))
    (messages : settlement (response (option obj)))
    (notifications : settlement (response unit)) :
  run (on_new_post me post)
      (services verifier messages notifications (failure None e)) σ0 [σ1]
  = ([ (σ0, [ORequest (select_followers (id (user me)))]); (σ1, []) ],
     Finished tt).
Proof. reflexivity. Qed.
End fan_out.

Lemma new_post_fans_out_to_the_followers_of_u1 :
  received "new_post_notification"
    (trace (run (on_new_post (device 0 u1) first_post) all_well lobby [lobby]))
  = [1; 2].
Proof.
  destruct (new_post_fans_out_to_the_followers (device 0 u1) first_post all_well
              lobby lobby [follower u2] None eq_refl)
    as (Hrun & _).
  rewrite Hrun. by vm_compute.
Defined.

(** ** Typing indicators *)




(** ** Connection gateway *)

Lemma sid_join_room (c : nat) (room : string) (x : socket) :
  sid (join_room c room x) = sid x.
Proof. unfold join_room. by destruct (sid x =? c). Qed.

Lemma fmap_sid_join_room (c : nat) (room : string) (l : list socket) :
  sid <$> (join_room c room <$> l) = sid <$> l.
Proof.
  rewrite <- list_fmap_compose. apply list_fmap_ext.
  intros ? x _. apply sid_join_room.
Qed.

(** C10. A handshake the middleware lets through makes the connection
    handler run: the socket joins its user's room, the user id is added to
    [online_users], and [user_online] with the user's id is emitted with
    [io.emit], to every connection of the namespace including the new
    one.  Nothing in this depends on the sockets the state already holds:
    a user who is already connected is announced again. *)
Theorem every_connection_broadcasts_user_online
    (c : nat) (token : value) (u : User) (ω : oracle) (σ0 σ1 : state) :
  admits ω token = Some u →
  let me := {| sid := c; user := u; rooms := ∅ |} in
  let joined :=
    {| sockets := join_room c (user_room (VStr (id u))) <$> (sockets σ1 ++ [me]);
       online_users := {[ id u ]} ∪ online_users σ1;
       now := now σ1 |} in
  let r := run (accept c token) ω σ0 [σ1] in
  r = ([ (σ0, [ORequest (auth_getUser token)]);
         (joined, [OLog "info" ("User connected: " +:+ id u) None;
                   OEmit ToAll "user_online" (PStr (id u))
                     ((sid <$> sockets σ1) ++ [c])]) ],
       Finished tt)
  ∧ emitted "user_online" (trace r)
    = [(ToAll, PStr (id u), (sid <$> sockets σ1) ++ [c])]
  ∧ (∀ c', c' ∈ sid <$> sockets σ1 → c' ∈ received "user_online" (trace r)).
Proof.
  intros Hu me joined r. unfold admits in Hu.
  destruct (truthy token) eqn:Htoken; [|done].
  assert (Hrun : r = ([ (σ0, [ORequest (auth_getUser token)]);
         (joined, [OLog "info" ("User connected: " +:+ id u) None;
                   OEmit ToAll "user_online" (PStr (id u))
                     ((sid <$> sockets σ1) ++ [c])]) ],
       Finished tt)).
  { subst r. unfold accept, auth_middleware. rewrite Htoken. cbn.
    destruct (ω (auth_getUser token)) as [[[[u'|]|] [e|]]|e]; try done.
    cbn in Hu. injection Hu as ->. cbn.
    by rewrite fmap_sid_join_room, (fmap_app sid). }
  split; [done|]. rewrite Hrun. split; [done|].
  intros c' Hc'. unfold received. cbn. rewrite app_nil_r, elem_of_app. by left.
Qed.

Lemma every_connection_broadcasts_user_online_third_device :
  (∃ x, x ∈ sockets lobby ∧ user x = u2)
  ∧ emitted "user_online"
      (trace (run (accept 3 (VStr "jwt-u2")) (vouches_for u2) lobby [lobby]))
    = [(ToAll, PStr "u2", [0; 1; 2; 3])].
Proof.
  split.
  - exists (device 1 u2). split; [|done]. unfold lobby. cbn. set_solver.
  - destruct (every_connection_broadcasts_user_online 3 (VStr "jwt-u2") u2
                (vouches_for u2) lobby lobby eq_refl)
      as (_ & Hemitted & _).
    exact Hemitted.
Defined.

(** The same in the event loop: [u2] connects a second device and is
    announced a second time, to both devices. *)
Example second_device_is_announced_again :
  emitted "user_online" (history (steps boot (take 4 second_device_stays)))
  = [(ToAll, PStr "u2", [0]); (ToAll, PStr "u2", [0; 1])].
Proof. by vm_compute. Qed.

(** A program registers sockets only as [registers_only] says. *)
Section registers.
Context (P : nat → Prop) (Ω : oracle → Prop).

Lemma registers_only_mono (P' : nat → Prop) (Ω' : oracle → Prop) {A} (p : prog A) :
  (∀ c, P c → P' c) → (∀ ω, Ω' ω → Ω ω) →
  registers_only P Ω p → registers_only P' Ω' p.
Proof.
  intros HP HΩ. induction p as [a|e|a k IH|k IH|q k IH]; cbn; try done.
  - intros [Ha Hk]. split; [|by apply IH]. destruct a; auto.
  - intros Hk t. by apply IH.
  - intros Hk ω Hω. apply IH, Hk, HΩ, Hω.
Qed.

Lemma relays_only_registers {A} (p : prog A) :
  relays_only p → registers_only P Ω p.
Proof.
  induction p as [a|e|a k IH|k IH|q k IH]; cbn; try done.
  - intros [Ha Hk]. split; [by destruct a|by apply IH].
  - intros Hk t. by apply IH.
  - intros Hk ω _. by apply IH.
Qed.

Lemma perform_registers (a : action) (σ : state) :
  match a with register s => P (sid s) | _ => True end →
  (∀ x, x ∈ sockets σ → P (sid x)) →
  ∀ x, x ∈ sockets (perform a σ).1 → P (sid x).
Proof.
  intros Ha Hσ x. destruct a; cbn; try apply Hσ.
  - intros [Hx| ->%list_elem_of_singleton]%elem_of_app; [by apply Hσ|done].
  - intros Hx%list_elem_of_In%filter_In. apply Hσ, list_elem_of_In, Hx.
  - intros (y & -> & Hy)%list_elem_of_fmap. rewrite sid_join_room. by apply Hσ.
Qed.

Lemma exec_registers_only {A} (p : prog A) (σ : state) :
  registers_only P Ω p →
  (∀ x, x ∈ sockets σ → P (sid x)) →
  (∀ x, x ∈ sockets (exec p σ).1.1 → P (sid x))
  ∧ match (exec p σ).2 with
    | Suspended q k => ∀ ω, Ω ω → registers_only P Ω (k (ω q))
    | _ => True
    end.
Proof.
  revert σ. induction p as [a|e|a k IH|k IH|q k IH]; intros σ Hp Hσ; cbn; try done.
  - destruct Hp as [Ha Hk].
    pose proof (perform_registers a σ Ha Hσ) as Hσ1.
    destruct (perform a σ) as [σ1 tr1]. cbn in Hσ1.
    specialize (IH σ1 Hk Hσ1).
    by destruct (exec k σ1) as [[σ2 tr2] st].
  - by apply IH.
Qed.
End registers.

(** None of the event handlers touches the namespace or the presence set. *)
Lemma relays_only_bind {A B} (p : prog A) (f : A → prog B) :
  relays_only p → (∀ a, relays_only (f a)) → relays_only (bind p f).
Proof.
  intros Hp Hf. induction p as [a|e|a k IH|k IH|q k IH]; cbn in *; auto.
  destruct Hp. auto.
Qed.

Lemma relays_only_try_catch {A} (p : prog A) (h : js_error → prog A) :
  relays_only p → (∀ e, relays_only (h e)) → relays_only (try_catch p h).
Proof.
  intros Hp Hh. induction p as [a|e|a k IH|k IH|q k IH]; cbn in *; auto.
  destruct Hp. auto.
Qed.

Lemma relays_only_await (q : query) : relays_only (await q).
Proof. by intros [r|e]. Qed.

Lemma relays_only_for_each {X} (l : list X) (f : X → prog unit) :
  (∀ x, relays_only (f x)) → relays_only (for_each l f).
Proof.
  intros Hf. induction l as [|x l IH]; [done|].
  cbn. apply relays_only_bind; auto.
Qed.

Lemma relays_only_handler (me : socket) (e : inbound) : relays_only (handler me e).
Proof.
  destruct e as [payload|payload|messageData|post]; cbn [handler]; try done.
  - apply relays_only_try_catch; [|done].
    apply relays_only_bind; [apply relays_only_await|]. intros r.
    apply relays_only_bind; [by destruct (error r)|]. intros _.
    apply relays_only_bind; [done|]. intros _.
    apply relays_only_bind; [by destruct (data r)|]. intros message_id.
    apply relays_only_bind; [done|]. intros created_at.
    apply relays_only_bind; [apply relays_only_await|]. intros r2.
    by destruct (error r2).
  - apply relays_only_try_catch; [|done].
    apply relays_only_bind; [apply relays_only_await|]. intros r.
    destruct (data r) as [followers|]; [|done].
    destruct (0 <? length followers); [|done].
    by apply relays_only_for_each.
Qed.

Lemma registers_only_close (P : nat → Prop) (Ω : oracle → Prop) (me : socket) :
  registers_only P Ω (close me).
Proof. by cbn. Qed.

Lemma registers_only_accept (P : nat → Prop) (Ω : oracle → Prop)
    (c : nat) (token : value) :
  P c → registers_only P Ω (accept c token).
Proof.
  intros Hc. unfold accept, auth_middleware.
  destruct (truthy token); cbn; [|done].
  intros ω _. by destruct (ω (auth_getUser token)) as [[[[u|]|] [e|]]|e].
Qed.

Lemma registers_only_accept_refused (P : nat → Prop) (c : nat) (token : value) :
  registers_only P (turns_away token) (accept c token).
Proof.
  unfold accept, auth_middleware, turns_away, admits.
  destruct (truthy token); cbn; [|done].
  intros ω Hω. by destruct (ω (auth_getUser token)) as [[[[u|]|] [e|]]|e].
Qed.

Lemma refused_handshake (c : nat) (token : value) (ω : oracle) (σ0 σ1 : state) :
  admits ω token = None →
  run (accept c token) ω σ0 [σ1]
  = (if truthy token
     then [ (σ0, [ORequest (auth_getUser token)]);
            (σ1, [OConnectError c authentication_error]) ]
     else [ (σ0, [OConnectError c authentication_error]) ],
     Finished tt).
Proof.
  unfold admits, accept, auth_middleware.
  destruct (truthy token); cbn; [|done].
  by destruct (ω (auth_getUser token)) as [[[[u|]|] [e|]]|e].
Qed.

(** The confinement of socket ids is kept by every step of the gateway. *)
Section confinement.
Context (P : nat → Prop) (Ω : oracle → Prop).

Lemma confined_spawn (p : prog unit) (s : system) :
  confined P Ω s → registers_only P Ω p → confined P Ω (spawn p s).
Proof.
  intros [Hsockets Htasks] Hp. unfold spawn.
  destruct (exec_registers_only P Ω p (shared s) Hp Hsockets) as [Hσ Hst].
  destruct (exec p (shared s)) as [[σ tr] [a|e|q k]]; split; cbn in *; try done.
  by apply map_Forall_insert_2.
Qed.

Lemma confined_step (s : system) (i : input) :
  confined P Ω s →
  match i with Connect _ => P (next_socket s) | _ => True end →
  settles_within Ω i →
  confined P Ω (step s i).
Proof.
  intros Hs Hnext Hi. destruct i as [token|c e|c|t ω|t]; cbn [step].
  - apply confined_spawn; [exact Hs|]. by apply registers_only_accept.
  - destruct (find_socket c (shared s)) as [me|]; [|done].
    apply confined_spawn; [done|]. apply relays_only_registers, relays_only_handler.
  - destruct (find_socket c (shared s)) as [me|]; [|done].
    apply confined_spawn; [done|]. apply registers_only_close.
  - destruct (tasks s !! t) as [[q k]|] eqn:Ht; [|done].
    destruct Hs as [Hsockets Htasks].
    apply confined_spawn.
    + split; [done|]. by apply map_Forall_delete.
    + apply (Htasks t (Task q k) Ht ω Hi).
  - exact Hs.
Qed.
End confinement.

Lemma confined_mono (P P' : nat → Prop) (Ω Ω' : oracle → Prop) (s : system) :
  (∀ c, P c → P' c) → (∀ ω, Ω' ω → Ω ω) →
  confined P Ω s → confined P' Ω' s.
Proof.
  intros HP HΩ [Hsockets Htasks]. split; [by auto|].
  eapply map_Forall_impl; [exact Htasks|].
  intros t [q k] Hk ω Hω. cbn in *.
  eapply registers_only_mono; [exact HP|exact HΩ|]. apply Hk, HΩ, Hω.
Qed.

Lemma next_socket_spawn (p : prog unit) (s : system) :
  next_socket (spawn p s) = next_socket s.
Proof.
  unfold spawn. by destruct (exec p (shared s)) as [[σ tr] [a|e|q k]].
Qed.

Lemma next_socket_step (s : system) (i : input) :
  next_socket (step s i)
  = match i with Connect _ => S (next_socket s) | _ => next_socket s end.
Proof.
  destruct i as [token|c e|c|t ω|t]; cbn [step]; try done.
  - by rewrite next_socket_spawn.
  - destruct (find_socket c (shared s)); [by rewrite next_socket_spawn|done].
  - destruct (find_socket c (shared s)); [by rewrite next_socket_spawn|done].
  - destruct (tasks s !! t) as [[q k]|]; [by rewrite next_socket_spawn|done].
Qed.

Lemma fresh_ids_step (s : system) (i : input) :
  fresh_ids s → fresh_ids (step s i).
Proof.
  unfold fresh_ids. intros Hs. apply confined_step.
  - apply (confined_mono (λ c, c < next_socket s) _ (λ _, True) _); [|done|exact Hs].
    intros c Hc. cbv beta in *. rewrite next_socket_step. destruct i; lia.
  - rewrite next_socket_step. destruct i; [lia|done..].
  - by destruct i.
Qed.

Lemma fresh_ids_steps (l : list input) (s : system) :
  fresh_ids s → fresh_ids (steps s l).
Proof.
  revert s. induction l as [|i l IH]; intros s Hs; [done|].
  cbn. apply IH. by apply fresh_ids_step.
Qed.

Lemma fresh_ids_boot : fresh_ids boot.
Proof.
  split; cbn.
  - by intros x ?%elem_of_nil.
  - apply map_Forall_empty.
Qed.

Lemma shut_out_step (c : nat) (Ω : oracle → Prop) (s : system) (i : input) :
  shut_out c Ω s → settles_within Ω i → shut_out c Ω (step s i).
Proof.
  intros [Hc Hs] Hi. split.
  - rewrite next_socket_step. destruct i; lia.
  - apply confined_step; [done| |done]. destruct i; [lia|done..].
Qed.

Lemma shut_out_steps (c : nat) (Ω : oracle → Prop) (l : list input) (s : system) :
  shut_out c Ω s → Forall (settles_within Ω) l → shut_out c Ω (steps s l).
Proof.
  revert s. induction l as [|i l IH]; intros s Hs Hl; [done|].
  apply Forall_cons in Hl as [Hi Hl]. cbn. apply IH; [|done].
  by apply shut_out_step.
Qed.

Lemma shut_out_refused (token : value) (s : system) :
  fresh_ids s →
  shut_out (next_socket s) (turns_away token) (step s (Connect token)).
Proof.
  intros Hs. split.
  - rewrite next_socket_step. lia.
  - cbn [step]. apply confined_spawn.
    + destruct Hs as [Hsockets Htasks]. split; cbn.
      * intros x Hx. apply Hsockets in Hx. lia.
      * eapply map_Forall_impl; [exact Htasks|].
        intros t [q k] Hk ω Hω. cbn in *.
        apply (registers_only_mono (λ c, c < next_socket s) (λ _, True));
          [intros c Hc; lia | done | apply (Hk ω I)].
    + apply registers_only_accept_refused.
Qed.

Lemma find_socket_None (c : nat) (σ : state) :
  (∀ x, x ∈ sockets σ → sid x ≠ c) → find_socket c σ = None.
Proof.
  unfold find_socket. induction (sockets σ) as [|x l IH]; intros Hl; [done|].
  cbn. destruct (Nat.eqb_spec (sid x) c) as [Heq|Hne].
  - destruct (Hl x); [by left|done].
  - apply IH. intros y Hy. apply Hl. by right.
Qed.

(** C3. A connection whose handshake carries no credential, or one the
    verifier does not vouch for, is refused: the middleware calls [next]
    with the authentication error, which is all that happens (no socket
    is tracked, no room joined, the shared state is untouched).  From then
    on, whatever else the gateway goes through, no socket with that
    connection's id exists, and an event arriving from it, of any kind,
    changes nothing: no handler is registered to take it. *)
Theorem refused_connection_is_never_served
    (before after : list input) (token : value) :
  let s := steps boot before in
  let c := next_socket s in
  Forall (settles_within (turns_away token)) after →
  let s' := steps s (Connect token :: after) in
  (∀ ω σ0 σ1, turns_away token ω →
     run (accept c token) ω σ0 [σ1]
     = (if truthy token
        then [ (σ0, [ORequest (auth_getUser token)]);
               (σ1, [OConnectError c authentication_error]) ]
        else [ (σ0, [OConnectError c authentication_error]) ],
        Finished tt))
  ∧ (∀ x, x ∈ sockets (shared s') → sid x ≠ c)
  ∧ (∀ e, step s' (Inbound c e) = s').
Proof.
  intros s c Hafter s'.
  assert (Hout : shut_out c (turns_away token) s').
  { subst s'. cbn [steps foldl]. apply shut_out_steps; [|done].
    apply shut_out_refused, fresh_ids_steps, fresh_ids_boot. }
  destruct Hout as (_ & Hsockets & _).
  split; [intros ω σ0 σ1; apply refused_handshake|]. split; [done|].
  intros e. cbn [step]. by rewrite find_socket_None.
Qed.

Lemma refused_connection_is_never_served_forged :
  let s' := steps boot [Connect (VStr "forged"); Settle 0 no_such_user] in
  step s' (Inbound 0 (send_message hi)) = s'
  ∧ step s' (Inbound 0 (typing_start saved_messages)) = s'
  ∧ step s' (Inbound 0 (new_post first_post)) = s'.
Proof.
  assert (Hafter : Forall (settles_within (turns_away (VStr "forged")))
                     [Settle 0 no_such_user]).
  { repeat constructor. }
  destruct (refused_connection_is_never_served [] [Settle 0 no_such_user]
              (VStr "forged") Hafter)
    as (_ & _ & Hnever).
  repeat split; apply Hnever.
Defined.

(** C4, where the gateway falls short of it. [u2] connects two devices
    and the first one closes: the [disconnect] handler removes the bare
    user id from [online_users] and broadcasts [user_offline], although
    the second device is still connected. *)
Theorem closing_one_of_two_devices_marks_the_user_offline :
  let s := steps boot second_device_stays in
  (sid <$> sockets (shared s) = [1]
   ∧ ∃ x, x ∈ sockets (shared s) ∧ id (user x) = "u2")
  ∧ ("u2" ∉ online_users (shared s))
  ∧ emitted "user_offline" (history s) = [(ToAll, PStr "u2", [1])]
  ∧ ¬ presence_exact (shared s).
Proof.
  intros s.
  assert (Hlive : sid <$> sockets (shared s) = [1]
                  ∧ ∃ x, x ∈ sockets (shared s) ∧ id (user x) = "u2").
  { split; [by vm_compute|]. exists (device 1 u2). split; [|done].
    replace (sockets (shared s)) with [device 1 u2]; [by left | by vm_compute]. }
  assert (Hoffline : "u2" ∉ online_users (shared s)).
  { apply (bool_decide_unpack _). by vm_compute. }
  split; [done|]. split; [done|]. split; [by vm_compute|].
  intros Hexact. apply Hoffline, Hexact, Hlive.
Qed.

(** ** No error escapes a handler *)

(** The middleware and the handlers that await wrap their body in
    [try]/[catch], and the [catch] blocks only log and emit: nothing
    these programs throw escapes them. *)
Lemma catches_all_try_catch {A} (p : prog A) (h : js_error → prog A) :
  (∀ e, catches_all (h e)) → catches_all (try_catch p h).
Proof. intros Hh. induction p as [a|e|a k IH|k IH|q k IH]; cbn; auto. Qed.

Lemma catches_all_bind {A B} (p : prog A) (f : A → prog B) :
  catches_all p → (∀ a, catches_all (f a)) → catches_all (bind p f).
Proof. intros Hp Hf. induction p as [a|e|a k IH|k IH|q k IH]; cbn in *; auto. Qed.

Lemma catches_all_handler (me : socket) (e : inbound) : catches_all (handler me e).
Proof. destruct e; cbn [handler]; try done; by apply catches_all_try_catch. Qed.

Lemma catches_all_accept (c : nat) (token : value) : catches_all (accept c token).
Proof.
  apply catches_all_bind; [by apply catches_all_try_catch|].
  by intros [e|u].
Qed.

Lemma exec_catches_all {A} (p : prog A) (σ : state) :
  catches_all p →
  match (exec p σ).2 with
  | Finished _ => True
  | Failed _ => False
  | Suspended q k => ∀ s, catches_all (k s)
  end.
Proof.
  revert σ. induction p as [a|e|a k IH|k IH|q k IH]; intros σ Hp; cbn; try done.
  - destruct (perform a σ) as [σ1 tr1]. specialize (IH σ1 Hp).
    by destruct (exec k σ1) as [[σ2 tr2] st].
  - by apply IH.
Qed.

(** What a stretch of a handler does on its own is what it does in the
    event loop: [spawn] appends the observations of [exec] to the history,
    installs the state [exec] ends in, and files the suspended program. *)
Lemma spawn_stretch (p : prog unit) (s : system) :
  catches_all p →
  shared (spawn p s) = (exec p (shared s)).1.1
  ∧ history (spawn p s) = history s ++ (exec p (shared s)).1.2
  ∧ tasks (spawn p s)
    = match pending (exec p (shared s)).2 with
      | Some tk => <[next_task s := tk]> (tasks s)
      | None => tasks s
      end.
Proof.
  intros Hp. pose proof (exec_catches_all p (shared s) Hp) as Hst.
  unfold spawn. by destruct (exec p (shared s)) as [[σ tr] [a|e|q k]].
Qed.

(** ** The bookkeeping of the event loop *)

(** A program that only relays leaves the shared state as it found it,
    and so does whatever it resumes to. *)
Lemma exec_relays_only {A} (p : prog A) (σ : state) :
  relays_only p →
  (exec p σ).1.1 = σ
  ∧ match (exec p σ).2 with
    | Suspended q k => ∀ s, relays_only (k s)
    | _ => True
    end.
Proof.
  revert σ. induction p as [a|e|a k IH|k IH|q k IH]; intros σ Hp; cbn; try done.
  - destruct Hp as [Ha Hk].
    assert (Hσ : (perform a σ).1 = σ) by (by destruct a).
    destruct (perform a σ) as [σ1 tr1]. cbn in Hσ. subst σ1.
    specialize (IH σ Hk).
    by destruct (exec k σ) as [[σ2 tr2] st].
  - by apply IH.
Qed.

Section sane.
Context (owner : gmap nat (nat * value)) (l : list socket) (n : nat)
        (T : gmap nat task).
Hypothesis Hsane : sane owner l n T.

Lemma sane_delete (t : nat) : sane (delete t owner) l n (delete t T).
Proof.
  destruct Hsane as (Hnodup & Hfresh & Htasks & Howner & Hdistinct).
  split; [done|]. split; [done|]. split; [|split].
  - intros t' tk [Hne Htk]%lookup_delete_Some.
    rewrite lookup_delete_ne by done. by apply Htasks.
  - intros t' c token [_ Ht']%lookup_delete_Some. by eapply Howner.
  - intros t1 t2 c tok1 tok2 [_ H1]%lookup_delete_Some [_ H2]%lookup_delete_Some.
    by eapply Hdistinct.
Qed.

Lemma sane_insert_relay (t : nat) (tk : task) :
  relay_task tk → sane (delete t owner) l n (<[t := tk]> T).
Proof.
  intros Htk.
  destruct Hsane as (Hnodup & Hfresh & Htasks & Howner & Hdistinct).
  split; [done|]. split; [done|]. split; [|split].
  - intros t' tk' [[<- <-]|[Hne Htk']]%lookup_insert_Some.
    + by rewrite lookup_delete_eq.
    + rewrite lookup_delete_ne by done. by apply Htasks.
  - intros t' c token [_ Ht']%lookup_delete_Some. by eapply Howner.
  - intros t1 t2 c tok1 tok2 [_ H1]%lookup_delete_Some [_ H2]%lookup_delete_Some.
    by eapply Hdistinct.
Qed.

Lemma sane_next : sane owner l (S n) T.
Proof.
  destruct Hsane as (Hnodup & Hfresh & Htasks & Howner & Hdistinct).
  split; [done|]. split; [|split; [done|split; [|done]]].
  - intros x Hx. apply Hfresh in Hx. lia.
  - intros t c token Ht. destruct (Howner t c token Ht). split; [lia|done].
Qed.

Lemma sane_insert_handshake (t : nat) (token : value) (tk : task) :
  pending_handshake n token = Some tk →
  sane (<[t := (n, token)]> owner) l (S n) (<[t := tk]> T).
Proof.
  intros Htk.
  destruct Hsane as (Hnodup & Hfresh & Htasks & Howner & Hdistinct).
  split; [done|]. split; [|split; [|split]].
  - intros x Hx. apply Hfresh in Hx. lia.
  - intros t' tk' [[<- <-]|[Hne Htk']]%lookup_insert_Some.
    + by rewrite lookup_insert_eq.
    + rewrite lookup_insert_ne by done. by apply Htasks.
  - intros t' c token' [[<- [= <- <-]]|[Hne Ht']]%lookup_insert_Some.
    + split; [lia|]. intros (x & Hx & Hin)%list_elem_of_fmap.
      apply Hfresh in Hin. lia.
    + destruct (Howner t' c token' Ht'). split; [lia|done].
  - intros t1 t2 c tok1 tok2
      [[<- [= <- <-]]|[Hne1 H1]]%lookup_insert_Some
      [[<- [= ]]|[Hne2 H2]]%lookup_insert_Some; try done.
    + subst. destruct (Howner _ _ _ H2). lia.
    + subst. destruct (Howner _ _ _ H1). lia.
    + by eapply Hdistinct.
Qed.

Lemma sane_unregister (c : nat) :
  sane owner (List.filter (λ s, negb (sid s =? c)) l) n T.
Proof.
  destruct Hsane as (Hnodup & Hfresh & Htasks & Howner & Hdistinct).
  split; [by apply NoDup_fmap_sid_filter|]. split; [|split; [done|split; [|done]]].
  - intros x Hx%list_elem_of_In%filter_In. apply Hfresh, list_elem_of_In, Hx.
  - intros t c' token Ht. destruct (Howner t c' token Ht) as [Hlt Hnotin].
    split; [done|]. intros (x & -> & Hx)%list_elem_of_fmap. apply Hnotin.
    apply list_elem_of_fmap. exists x. split; [done|].
    apply list_elem_of_In, filter_In in Hx as [Hx _]. by apply list_elem_of_In.
Qed.

Lemma sane_register (t c : nat) (token : value) (me : socket) (room : string) :
  owner !! t = Some (c, token) → sid me = c →
  sane (delete t owner) (join_room c room <$> (l ++ [me])) n (delete t T).
Proof.
  intros Ht Hme.
  destruct Hsane as (Hnodup & Hfresh & Htasks & Howner & Hdistinct).
  destruct (Howner t c token Ht) as [Hlt Hnotin].
  split; [|split; [|split; [|split]]].
  - rewrite fmap_sid_join_room, fmap_app. cbn. rewrite Hme.
    apply NoDup_app. split; [done|]. split; [|apply NoDup_singleton].
    intros x Hx ->%list_elem_of_singleton. done.
  - intros x (y & -> & [Hy| ->%list_elem_of_singleton]%elem_of_app)%list_elem_of_fmap;
      rewrite sid_join_room; [by apply Hfresh|lia].
  - intros t' tk [Hne Htk]%lookup_delete_Some.
    rewrite lookup_delete_ne by done. by apply Htasks.
  - intros t' c' token' [Hne Ht']%lookup_delete_Some.
    destruct (Howner t' c' token' Ht') as [Hlt' Hnotin']. split; [done|].
    rewrite fmap_sid_join_room, fmap_app. cbn. rewrite Hme.
    intros [Hin| ->%list_elem_of_singleton]%elem_of_app; [done|].
    apply Hne. by eapply Hdistinct.
  - intros t1 t2 c' tok1 tok2 [_ H1]%lookup_delete_Some [_ H2]%lookup_delete_Some.
    by eapply Hdistinct.
Qed.
End sane.

Lemma well_formed_spawn_relay (owner : gmap nat (nat * value)) (p : prog unit)
    (σ : state) (h : list obs) (n nt : nat) (T : gmap nat task) :
  relays_only p →
  sane owner (sockets σ) n T →
  well_formed (spawn p {| shared := σ; history := h; next_socket := n;
                          next_task := nt; tasks := T |}).
Proof.
  intros Hp Hsane. unfold spawn, well_formed. cbn [shared].
  destruct (exec_relays_only p σ Hp) as [Hσ Hst].
  destruct (exec p σ) as [[σ' tr] [a|e|q k]]; cbn in *; subst σ'.
  - by exists owner.
  - by exists owner.
  - exists (delete nt owner). by apply sane_insert_relay.
Qed.

(** Every step of the event loop keeps the bookkeeping sound. *)
Lemma well_formed_step (s : system) (i : input) :
  well_formed s → well_formed (step s i).
Proof.
  intros [owner Hsane]. destruct s as [σ h n nt T]. cbn in Hsane.
  destruct i as [token|c e|c|t ω|time]; cbn [step shared next_socket tasks history next_task].
  - unfold spawn, accept, auth_middleware. cbn [shared].
    destruct (truthy token) eqn:Htoken; cbn.
    + exists (<[nt := (n, token)]> owner). apply sane_insert_handshake; [done|].
      unfold pending_handshake, accept, auth_middleware. by rewrite Htoken.
    + exists owner. by apply sane_next.
  - destruct (find_socket c σ) as [me|]; [|by exists owner].
    eapply well_formed_spawn_relay; [apply relays_only_handler|done].
  - destruct (find_socket c σ) as [me|]; [|by exists owner].
    exists owner. cbn. by apply sane_unregister.
  - destruct (T !! t) as [tk|] eqn:Ht; [|by exists owner].
    pose proof Hsane as (_ & _ & Htasks & _).
    specialize (Htasks t tk Ht).
    destruct (owner !! t) as [[c token]|] eqn:Howner.
    + unfold pending_handshake, accept, auth_middleware in Htasks.
      destruct (truthy token); [|done]. cbn in Htasks. injection Htasks as <-.
      unfold spawn. cbn [shared].
      destruct (ω (auth_getUser token)) as [[[[u|]|] [e|]]|e]; cbn;
        try (exists (delete t owner); by apply sane_delete).
      exists (delete t owner). by eapply sane_register.
    + destruct tk as [q k].
      apply (well_formed_spawn_relay (delete t owner)); [apply Htasks|].
      by apply sane_delete.
  - by exists owner.
Qed.

Lemma well_formed_boot : well_formed boot.
Proof.
  exists ∅. split; [apply NoDup_nil_2|]. split; [by intros x ?%elem_of_nil|].
  split; [by intros t tk ?|]. split; by intros.
Qed.

Lemma well_formed_steps (l : list input) (s : system) :
  well_formed s → well_formed (steps s l).
Proof.
  revert s. induction l as [|i l IH]; intros s Hs; [done|].
  cbn. apply IH. by apply well_formed_step.
Qed.

(** In every state the gateway reaches, the connections have distinct
    ids. *)
Lemma reachable_ids_distinct (l : list input) :
  NoDup (sid <$> sockets (shared (steps boot l))).
Proof.
  destruct (well_formed_steps l boot well_formed_boot) as (owner & Hnodup & _).
  exact Hnodup.
Qed.

(** ** Presence *)

Lemma shared_spawn_relay (p : prog unit) (s : system) :
  relays_only p → shared (spawn p s) = shared s.
Proof.
  intros Hp. destruct (exec_relays_only p (shared s) Hp) as [Hσ _].
  unfold spawn. destruct (exec p (shared s)) as [[σ tr] [a|e|q k]]; by cbn in *.
Qed.

Lemma find_socket_Some (c : nat) (σ : state) (me : socket) :
  find_socket c σ = Some me → me ∈ sockets σ ∧ sid me = c.
Proof.
  intros [Hin Hsid]%find_some. split; [by apply list_elem_of_In|].
  by apply Nat.eqb_eq.
Qed.

Lemma same_sid_same_socket (l : list socket) (x y : socket) :
  NoDup (sid <$> l) → x ∈ l → y ∈ l → sid x = sid y → x = y.
Proof.
  induction l as [|z l IH]; cbn; [by intros _ ?%elem_of_nil|].
  rewrite NoDup_cons. intros [Hz Hl] [->|Hx]%elem_of_cons [->|Hy]%elem_of_cons Hsid.
  - done.
  - destruct Hz. rewrite Hsid. apply list_elem_of_fmap. by exists y.
  - destruct Hz. rewrite <- Hsid. apply list_elem_of_fmap. by exists x.
  - by apply IH.
Qed.

(** X4. A step of the gateway keeps the sound half of the presence
    invariant: if, before the step, whoever is in [online_users] has a
    live connection, then so it is after the step, whatever the step is.
    The gateway puts a user into the set only next to a connection it has
    just registered, and a connection that closes takes its own user out.
    (That the set is sound to begin with is assumed, not shown: the set
    is in Redis and outlives the process.  The other half is what closing
    one of two devices breaks.) *)
Theorem a_step_keeps_presence_sound (s : system) (i : input) :
  well_formed s → presence_sound (shared s) → presence_sound (shared (step s i)).
Proof.
  intros [owner Hsane] Hsound. destruct s as [σ h n nt T]. cbn in Hsane, Hsound.
  destruct i as [token|c e|c|t ω|time]; cbn [step shared next_socket tasks history next_task].
  - unfold spawn, accept, auth_middleware. cbn [shared].
    by destruct (truthy token).
  - destruct (find_socket c σ) as [me|]; [|done].
    by rewrite shared_spawn_relay by apply relays_only_handler.
  - destruct (find_socket c σ) as [me|] eqn:Hme; [|done].
    apply find_socket_Some in Hme as [Hme Hc].
    cbn. intros uid [Huid Hnot%not_elem_of_singleton]%elem_of_difference.
    destruct (Hsound uid Huid) as (x & Hx & Hid).
    exists x. split; [|done].
    apply list_elem_of_In, filter_In. split; [by apply list_elem_of_In|].
    apply negb_true_iff, Nat.eqb_neq. intros Hsid.
    destruct Hsane as (Hnodup & _).
    apply Hnot. rewrite <- Hid. f_equal. f_equal.
    apply (same_sid_same_socket (sockets σ)); [done..|]. by rewrite Hsid.
  - destruct (T !! t) as [tk|] eqn:Ht; [|done].
    pose proof Hsane as (_ & _ & Htasks & _).
    specialize (Htasks t tk Ht).
    destruct (owner !! t) as [[c token]|] eqn:Howner.
    + unfold pending_handshake, accept, auth_middleware in Htasks.
      destruct (truthy token); [|done]. cbn in Htasks. injection Htasks as <-.
      unfold spawn. cbn [shared].
      destruct (ω (auth_getUser token)) as [[[[u|]|] [e|]]|e]; cbn; try done.
      intros uid [->%elem_of_singleton|Huid]%elem_of_union.
      * exists (join_room c (user_room (VStr (id u)))
                  {| sid := c; user := u; rooms := ∅ |}).
        split; [|unfold join_room; by destruct (_ =? _)].
        apply list_elem_of_fmap_2, elem_of_app. right. by left.
      * destruct (Hsound uid Huid) as (x & Hx & Hid).
        exists (join_room c (user_room (VStr (id u))) x).
        split; [|unfold join_room; by destruct (_ =? _)].
        apply list_elem_of_fmap_2, elem_of_app. by left.
    + destruct tk as [q k]. by rewrite shared_spawn_relay by apply Htasks.
  - done.
Qed.

Lemma a_step_keeps_presence_sound_second_device :
  let s := steps boot (take 3 second_device_stays) in
  presence_sound (shared (step s (Settle 1 (vouches_for u2)))).
Proof.
  intros s. apply (a_step_keeps_presence_sound s).
  - apply well_formed_steps, well_formed_boot.
  - assert (Hs : online_users (shared s) = {[ "u2" ]}
                 ∧ sockets (shared s) = [device 0 u2]) by (by vm_compute).
    destruct Hs as [Honline Hsockets].
    intros uid Huid. rewrite Honline in Huid.
    apply elem_of_singleton in Huid as ->.
    exists (device 0 u2). rewrite Hsockets. split; [by left|done].
Defined.

(** ** Two scenarios, end to end *)

(** [u1] connects and everybody sees [user_online]; [u1] says hi to [u2],
    who receives the stored message with the sender stamped and the id
    assigned, and a notification of type message is written for [u2];
    [u1] leaves and [u2] sees [user_offline]. *)
Example a_conversation_history :
  let h := history (steps boot a_conversation) in
  emitted "user_online" h = [(ToAll, PStr "u1", [0]); (ToAll, PStr "u2", [0; 1])]
  ∧ emitted "new_message" h = [(ToRoom "user:u2", PObj stored_hi, [1])]
  ∧ get stored_hi "sender_id" = VStr "u1"
  ∧ List.filter is_insert_notification (requests h)
    = [insert_notification
         {[ "user_id" := VStr "u2"; "type" := VStr "message";
            "actor_id" := VStr "u1"; "message_id" := VStr "m1";
            "read" := VBool false; "created_at" := VStr "" ]}]
  ∧ emitted "user_offline" h = [(ToAll, PStr "u1", [1])]
  ∧ emitted "error" h = [].
Proof. by vm_compute. Qed.

(** [u3] writes while the storage is failing: [u3] is sent one [error],
    [u2] nothing, and no notification is written. *)
Example an_outage_history :
  let h := history (steps boot an_outage) in
  emitted "error" h = [(ToSocket 1, send_failed, [1])]
  ∧ emitted "new_message" h = []
  ∧ List.filter is_insert_notification (requests h) = []
  ∧ error_log h = [("Message send error:", Some storage_down)].
Proof. by vm_compute. Qed.

(** The same, but [u3] has gone when the storage fails: the failure is
    logged, and the [error] event, written to a socket that has left,
    reaches nobody. *)
Example a_sender_who_left_history :
  let s := steps boot a_sender_who_left in
  sid <$> sockets (shared s) = [0]
  ∧ emitted "error" (history s) = [(ToSocket 1, send_failed, [])]
  ∧ emitted "new_message" (history s) = []
  ∧ error_log (history s) = [("Message send error:", Some storage_down)].
Proof. by vm_compute. Qed.

(** ** More of the gateway *)

(** X1. When the transport of a connection closes, the connection leaves
    the namespace and nothing else does, its user is taken out of
    [online_users], the departure is logged, and [user_offline] goes to
    every connection that is left and not to the one that closed; no
    pending call is touched. *)
Theorem closing_a_connection (s : system) (c : nat) (me : socket) :
  find_socket c (shared s) = Some me →
  let rest := List.filter (λ x, negb (sid x =? c)) (sockets (shared s)) in
  let s' := step s (Close c) in
  sockets (shared s') = rest
  ∧ online_users (shared s') = online_users (shared s) ∖ {[ id (user me) ]}
  ∧ history s'
    = history s ++ [ OLog "info" ("User disconnected: " +:+ id (user me)) None;
                     OEmit ToAll "user_offline" (PStr (id (user me))) (sid <$> rest) ]
  ∧ (c ∉ sid <$> rest)
  ∧ tasks s' = tasks s.
Proof.
  intros Hme rest s'. subst s'. cbn [step]. rewrite Hme.
  apply find_some in Hme as [_ Hc%Nat.eqb_eq].
  unfold spawn. cbn. rewrite Hc. fold rest.
  repeat split; try done.
  intros (x & -> & Hx)%list_elem_of_fmap.
  apply list_elem_of_In, filter_In in Hx as [_ Hx].
  by apply negb_true_iff, Nat.eqb_neq in Hx.
Qed.

Lemma closing_a_connection_in_the_lobby :
  let s := {| shared := lobby; history := []; next_socket := 3; next_task := 0;
              tasks := ∅ |} in
  let rest := List.filter (λ x, negb (sid x =? 0)) (sockets (shared s)) in
  let s' := step s (Close 0) in
  sockets (shared s') = rest
  ∧ online_users (shared s') = online_users (shared s) ∖ {[ id (user (device 0 u1)) ]}
  ∧ history s'
    = history s ++ [ OLog "info" ("User disconnected: " +:+ id (user (device 0 u1))) None;
                     OEmit ToAll "user_offline" (PStr (id (user (device 0 u1))))
                       (sid <$> rest) ]
  ∧ (0 ∉ sid <$> rest)
  ∧ tasks s' = tasks s.
Proof.
  intros s. apply (closing_a_connection s 0 (device 0 u1)). reflexivity.
Defined.

Lemma run_relays_only {A} (p : prog A) (ω : oracle) (σ : state) (later : list state) :
  relays_only p → (run p ω σ later).1.*1 `prefix_of` σ :: later.
Proof.
  revert p σ. induction later as [|σ1 later IH]; intros p σ Hp.
  - destruct (exec_relays_only p σ Hp) as [Hσ _]. cbn.
    destruct (exec p σ) as [[σ' tr] st]. cbn in Hσ. subst σ'.
    by destruct st.
  - destruct (exec_relays_only p σ Hp) as [Hσ Hst]. cbn.
    destruct (exec p σ) as [[σ' tr] [a|e|q k]]; cbn in *; subst σ'.
    + by apply prefix_cons, prefix_nil.
    + by apply prefix_cons, prefix_nil.
    + specialize (IH (k (ω q)) σ1 (Hst _)).
      destruct (run (k (ω q)) ω σ1 later) as [l st']. cbn in *.
      by apply prefix_cons.
Qed.

(** X2. The handlers of [typing_start], [typing_stop], [send_message] and
    [new_post] only relay: whatever the services answer and however the
    gateway changes while a handler waits, the handler itself leaves the
    connections, their rooms and [online_users] as it finds them at each
    of its turns. *)
Theorem handlers_leave_the_shared_state_alone
    (me : socket) (e : inbound) (ω : oracle) (σ : state) (later : list state) :
  (run (handler me e) ω σ later).1.*1 `prefix_of` σ :: later.
Proof. apply run_relays_only, relays_only_handler. Qed.

Lemma own_rooms_step (s : system) (i : input) :
  well_formed s →
  Forall own_room (sockets (shared s)) →
  Forall own_room (sockets (shared (step s i))).
Proof.
  intros [owner Hsane] Hrooms. destruct s as [σ h n nt T]. cbn in Hsane, Hrooms.
  destruct i as [token|c e|c|t ω|time]; cbn [step shared next_socket tasks history next_task].
  - unfold spawn, accept, auth_middleware. cbn [shared].
    by destruct (truthy token).
  - destruct (find_socket c σ) as [me|]; [|done].
    by rewrite shared_spawn_relay by apply relays_only_handler.
  - destruct (find_socket c σ) as [me|]; [|done].
    cbn. apply Forall_forall. intros x Hx%list_elem_of_In%filter_In.
    rewrite Forall_forall in Hrooms. apply Hrooms, list_elem_of_In, Hx.
  - destruct (T !! t) as [tk|] eqn:Ht; [|done].
    pose proof Hsane as (_ & _ & Htasks & Howner & _).
    specialize (Htasks t tk Ht).
    destruct (owner !! t) as [[c token]|] eqn:Hc.
    + unfold pending_handshake, accept, auth_middleware in Htasks.
      destruct (truthy token); [|done]. cbn in Htasks. injection Htasks as <-.
      unfold spawn. cbn [shared].
      destruct (ω (auth_getUser token)) as [[[[u|]|] [e|]]|e]; cbn; try done.
      destruct (Howner t c token Hc) as [_ Hfresh].
      rewrite fmap_app. apply Forall_app. split.
      * apply Forall_fmap, Forall_forall. intros x Hx. cbn.
        rewrite Forall_forall in Hrooms. unfold join_room.
        destruct (Nat.eqb_spec (sid x) c) as [<-|_]; [|by apply Hrooms].
        destruct Hfresh. apply list_elem_of_fmap. by exists x.
      * apply Forall_singleton. unfold own_room, join_room. cbn.
        rewrite Nat.eqb_refl. cbn. by rewrite union_empty_r_L.
    + destruct tk as [q k]. by rewrite shared_spawn_relay by apply Htasks.
  - done.
Qed.

Lemma own_rooms_steps (l : list input) :
  Forall own_room (sockets (shared (steps boot l))).
Proof.
  assert (H : ∀ s, well_formed s → Forall own_room (sockets (shared s)) →
                   Forall own_room (sockets (shared (steps s l)))).
  { induction l as [|i l IH]; intros s Hwf Hs; [done|].
    cbn. apply IH; [by apply well_formed_step | by apply own_rooms_step]. }
  apply H; [apply well_formed_boot | apply Forall_nil_2].
Qed.

(** X3. In every state the gateway reaches, the channel [user:<r>] holds
    the connections of the user [r] and no others: what is sent to a
    user's channel reaches that user's devices only. *)
Theorem a_channel_holds_only_its_user (l : list input) (r : string) (c : nat) :
  let σ := shared (steps boot l) in
  c ∈ bound (user_room (VStr r)) σ
  ↔ ∃ x, x ∈ sockets σ ∧ sid x = c ∧ id (user x) = r.
Proof.
  intros σ. rewrite elem_of_bound.
  pose proof (own_rooms_steps l) as Hrooms. rewrite Forall_forall in Hrooms.
  split; intros (x & Hx & Hc & Hr); exists x; (split; [done|]); (split; [done|]).
  - rewrite (Hrooms x Hx) in Hr. apply elem_of_singleton in Hr.
    symmetry. by apply user_room_inj.
  - rewrite (Hrooms x Hx), Hr. by apply elem_of_singleton.
Qed.

Lemma run_catches_all {A} (p : prog A) (ω : oracle) (σ : state)
    (later : list state) (e : js_error) :
  catches_all p → (run p ω σ later).2 ≠ Failed e.
Proof.
  revert p σ. induction later as [|σ1 later IH]; intros p σ Hp.
  - pose proof (exec_catches_all p σ Hp) as Hst. cbn.
    by destruct (exec p σ) as [[σ' tr] [a|e'|q k]].
  - pose proof (exec_catches_all p σ Hp) as Hst. cbn.
    destruct (exec p σ) as [[σ' tr] [a|e'|q k]]; cbn in *; try done.
    specialize (IH (k (ω q)) σ1 (Hst _)).
    by destruct (run (k (ω q)) ω σ1 later) as [l st'].
Qed.

(** X6. Whatever the verifier and the storage answer, whether they
    resolve or reject and however far the run gets, the authentication
    middleware, the [send_message] handler and the [new_post] handler
    never end in an error: every failure of a call they await and every
    error thrown on the way is caught by their own [try]/[catch].  (The
    Redis commands of the connection and disconnect handlers are not
    awaited; they are no part of this statement.) *)
Theorem awaited_failures_are_caught
    (me : socket) (token : value) (messageData post : obj)
    (ω : oracle) (σ : state) (later : list state) (e : js_error) :
  (run (auth_middleware token) ω σ later).2 ≠ Failed e
  ∧ (run (on_send_message me messageData) ω σ later).2 ≠ Failed e
  ∧ (run (on_new_post me post) ω σ later).2 ≠ Failed e.
Proof.
  split; [|split].
  - apply run_catches_all. by apply catches_all_try_catch.
  - apply run_catches_all, (catches_all_handler me (send_message messageData)).
  - apply run_catches_all, (catches_all_handler me (new_post post)).
Qed.

(** ** The analytics routes: what they compute *)

Section analytics_facts.
Import analytics.

Section tables.
Context {V : Type} (f : string → V).
Local Abbreviation entry := (λ k : string, (k, f k)).

Lemma own_table (ks : list string) (d : string) :
  analytics.own (entry <$> ks) d = if bool_decide (d ∈ ks) then Some (f d) else None.
Proof.
  induction ks as [|k ks IH]; cbn; [done|].
  destruct (String.eqb_spec k d) as [->|Hne].
  - by rewrite bool_decide_eq_true_2 by left.
  - rewrite IH. apply (f_equal (λ b : bool, if b then Some (f d) else None)).
    apply bool_decide_ext. rewrite elem_of_cons.
    split; [by right | by intros [->|]].
Qed.

Lemma put_table_new (ks : list string) (d : string) (v : V) :
  d ∉ ks → analytics.put (entry <$> ks) d v = (entry <$> ks) ++ [(d, v)].
Proof.
  induction ks as [|k ks IH]; cbn; [done|].
  intros [Hne Hd]%not_elem_of_cons.
  destruct (String.eqb_spec k d) as [->|_]; [done|]. by rewrite IH.
Qed.
End tables.

Lemma put_table_old {V} (f g : string → V) (ks : list string) (d : string) :
  NoDup ks → d ∈ ks → (∀ k, k ≠ d → g k = f k) →
  analytics.put ((λ k, (k, f k)) <$> ks) d (g d) = (λ k, (k, g k)) <$> ks.
Proof.
  intros Hks Hd Hg. induction Hks as [|k ks Hk Hks IH]; cbn.
  - by apply elem_of_nil in Hd.
  - destruct (String.eqb_spec k d) as [->|Hne].
    + f_equal. apply list_fmap_ext. intros i k Hik.
      rewrite (Hg k); [done|]. intros ->. apply Hk. by eapply list_elem_of_lookup_2.
    + rewrite (Hg k) by done. f_equal. apply IH.
      apply elem_of_cons in Hd as [->|Hd]; done.
Qed.


Lemma elem_of_first_seen (l : list string) (x : string) :
  x ∈ first_seen l ↔ x ∈ l.
Proof.
  induction l as [|y l IH]; cbn; [done|].
  rewrite !elem_of_cons, <- IH. split.
  - intros [->|Hx%list_elem_of_In%filter_In]; [by left|].
    right. apply list_elem_of_In, Hx.
  - intros [->|Hx]; [by left|].
    destruct (String.eqb_spec x y) as [->|Hne]; [by left|]. right.
    apply list_elem_of_In, filter_In. split; [by apply list_elem_of_In|].
    by apply negb_true_iff, String.eqb_neq.
Qed.

Lemma NoDup_first_seen (l : list string) : NoDup (first_seen l).
Proof.
  induction l as [|y l IH]; cbn; [apply NoDup_nil_2|].
  apply NoDup_cons. split.
  - intros [_ Hy]%list_elem_of_In%filter_In.
    by rewrite String.eqb_refl in Hy.
  - apply NoDup_ListNoDup, List.NoDup_filter, NoDup_ListNoDup, IH.
Qed.

Lemma first_seen_snoc (l : list string) (x : string) :
  first_seen (l ++ [x])
  = if bool_decide (x ∈ l) then first_seen l else first_seen l ++ [x].
Proof.
  induction l as [|y l IH]; cbn; [done|].
  rewrite IH. destruct (decide (x ∈ l)) as [Hx|Hx].
  - rewrite (bool_decide_eq_true_2 (x ∈ l)) by done.
    by rewrite (bool_decide_eq_true_2 (x ∈ y :: l)) by (by right).
  - rewrite (bool_decide_eq_false_2 (x ∈ l)) by done.
    rewrite List.filter_app. cbn.
    destruct (String.eqb_spec x y) as [->|Hne]; cbn.
    + rewrite bool_decide_eq_true_2 by left. by rewrite app_nil_r.
    + rewrite bool_decide_eq_false_2; [done|].
      rewrite elem_of_cons. by intros [?|?].
Qed.

Lemma on_day_snoc (d : string) (l : list obj) (a : obj) :
  on_day d (l ++ [a]) = on_day d l ++ (if String.eqb (day a) d then [a] else []).
Proof. unfold on_day. by rewrite List.filter_app. Qed.

Lemma day_of_dated (var : string) (a : obj) :
  dated a → day_of var a = inr (day a).
Proof. intros [s Hs]. unfold day, day_of. by rewrite Hs. Qed.


Lemma on_day_unseen (d : string) (l : list obj) :
  d ∉ day <$> l → on_day d l = [].
Proof.
  intros Hd. unfold on_day. induction l as [|a l IH]; cbn; [done|].
  apply not_elem_of_cons in Hd as [Hne Hd].
  apply not_eq_sym, String.eqb_neq in Hne. rewrite Hne. by apply IH.
Qed.

Lemma file_grouped (pre : list obj) (a : obj) :
  dated a → day a ∉ inherited →
  file ((λ d, (d, grouped pre d)) <$> first_seen (day <$> pre)) a
  = inr ((λ d, (d, grouped (pre ++ [a]) d)) <$> first_seen (day <$> pre ++ [a])).
Proof.
  intros Ha Hday. unfold file. rewrite (day_of_dated _ a Ha).
  rewrite own_table, fmap_app. cbn [fmap list_fmap]. rewrite first_seen_snoc.
  assert (Hseen : day a ∈ first_seen (day <$> pre) ↔ day a ∈ day <$> pre)
    by apply elem_of_first_seen.
  destruct (decide (day a ∈ day <$> pre)) as [Hin|Hin].
  - rewrite (bool_decide_eq_true_2 (day a ∈ day <$> pre)) by done.
    rewrite bool_decide_eq_true_2 by (by apply Hseen).
    f_equal.
    assert (Hg : {| date := date (grouped pre (day a));
                    activities := activities (grouped pre (day a)) ++ [a];
                    count := S (count (grouped pre (day a))) |}
                 = grouped (pre ++ [a]) (day a)).
    { unfold grouped. cbn. rewrite on_day_snoc, String.eqb_refl.
      rewrite length_app. cbn. f_equal. lia. }
    rewrite Hg.
    apply (put_table_old (grouped pre) (grouped (pre ++ [a]))).
    + apply NoDup_first_seen.
    + by apply Hseen.
    + intros k Hk. unfold grouped. rewrite on_day_snoc.
      apply not_eq_sym, String.eqb_neq in Hk. rewrite Hk.
      by rewrite app_nil_r.
  - rewrite (bool_decide_eq_false_2 (day a ∈ day <$> pre)) by done.
    rewrite bool_decide_eq_false_2 by (by rewrite Hseen).
    rewrite bool_decide_eq_false_2 by done. f_equal.
    rewrite put_table_new by (by rewrite Hseen).
    rewrite fmap_app. cbn. f_equal.
    + apply list_fmap_ext. intros i k Hk. f_equal.
      unfold grouped. rewrite on_day_snoc.
      assert (Hne : day a ≠ k).
      { intros <-. apply Hin, Hseen. by eapply list_elem_of_lookup_2. }
      apply String.eqb_neq in Hne. rewrite Hne. by rewrite app_nil_r.
    + do 2 f_equal. unfold grouped. rewrite on_day_snoc, String.eqb_refl.
      by rewrite on_day_unseen.
Qed.

Lemma file_all_grouped (pre rest : list obj) :
  Forall (λ a, dated a ∧ day a ∉ inherited) rest →
  file_all ((λ d, (d, grouped pre d)) <$> first_seen (day <$> pre)) rest
  = inr ((λ d, (d, grouped (pre ++ rest) d)) <$> first_seen (day <$> pre ++ rest)).
Proof.
  revert pre. induction rest as [|a rest IH]; intros pre Hrest; cbn.
  - by rewrite app_nil_r.
  - apply Forall_cons in Hrest as [[Ha Hday] Hrest].
    rewrite file_grouped by done. rewrite IH by done.
    by rewrite <- app_assoc.
Qed.


Lemma own_put {V} (o : list (string * V)) (k k' : string) (v : V) :
  own (put o k v) k' = if String.eqb k k' then Some v else own o k'.
Proof.
  induction o as [|[k0 v0] o IH]; cbn.
  - done.
  - destruct (String.eqb_spec k0 k) as [->|Hne]; cbn.
    + by destruct (String.eqb k k').
    + rewrite IH. destruct (String.eqb_spec k0 k') as [->|Hne']; [|done].
      apply not_eq_sym, String.eqb_neq in Hne. by rewrite Hne.
Qed.

Lemma file_all_fileable (o o' : list (string * group)) (l : list obj) :
  (∀ d, d ∈ inherited → own o d = None) →
  file_all o l = inr o' →
  Forall (λ a, dated a ∧ day a ∉ inherited) l.
Proof.
  revert o. induction l as [|a l IH]; intros o Ho Hall; [by apply Forall_nil_2|].
  cbn in Hall. destruct (file o a) as [e|o1] eqn:Hfile; [done|].
  assert (Ha : (dated a ∧ day a ∉ inherited)
               ∧ ∀ d, d ∈ inherited → own o1 d = None).
  { unfold file in Hfile. unfold day, dated, day_of in *.
    destruct (get a "created_at") as [| |b|s]; try done.
    destruct (own o (split_T_0 s)) as [g|] eqn:Hown.
    - assert (Hs : split_T_0 s ∉ inherited).
      { intros Hin. by rewrite (Ho _ Hin) in Hown. }
      injection Hfile as <-. split; [by eauto|].
      intros d Hd. rewrite own_put.
      destruct (String.eqb_spec (split_T_0 s) d) as [<-|_]; [done|by apply Ho].
    - case_bool_decide as Hs; [done|]. injection Hfile as <-.
      split; [by eauto|].
      intros d Hd. rewrite own_put.
      destruct (String.eqb_spec (split_T_0 s) d) as [<-|_]; [done|by apply Ho]. }
  destruct Ha as [Ha Ho1]. apply Forall_cons. split; [done|].
  by apply (IH o1).
Qed.

Lemma indexed_named_nil {V} (o : list (string * V)) :
  Forall (λ kv, array_index kv.1 = None) o →
  indexed o = [] ∧ named o = o.*2.
Proof.
  induction 1 as [|[k v] o Hk Ho [IH1 IH2]]; [done|].
  unfold indexed, named in *. cbn in *. rewrite Hk. cbn.
  by rewrite IH1, IH2.
Qed.

Lemma object_values_named {V} (o : list (string * V)) :
  Forall (λ kv, array_index kv.1 = None) o → object_values o = o.*2.
Proof.
  intros [Hi Hn]%indexed_named_nil. unfold object_values. by rewrite Hi, Hn.
Qed.

Lemma object_values_perm {V} (o : list (string * V)) : object_values o ≡ₚ o.*2.
Proof.
  unfold object_values. rewrite merge_sort_Permutation.
  induction o as [|[k v] o IH]; [done|].
  unfold indexed, named in *. cbn.
  destruct (array_index k) as [n|]; cbn.
  - by rewrite IH.
  - by rewrite <- Permutation_middle, IH.
Qed.

Lemma concat_filter_out (g : string → list obj) (ks : list string) (d : string) :
  NoDup ks →
  concat (g <$> ks)
  ≡ₚ (if bool_decide (d ∈ ks) then g d else [])
     ++ concat (g <$> List.filter (λ y, negb (String.eqb y d)) ks).
Proof.
  induction 1 as [|k ks Hk Hks IH]; cbn; [done|].
  destruct (String.eqb_spec k d) as [->|Hne]; cbn.
  - rewrite bool_decide_eq_true_2 by left.
    rewrite IH, bool_decide_eq_false_2 by done. done.
  - rewrite IH.
    replace (bool_decide (d ∈ k :: ks)) with (bool_decide (d ∈ ks)).
    + rewrite !app_assoc. f_equiv. apply Permutation_app_comm.
    + apply bool_decide_ext. rewrite elem_of_cons.
      split; [by right | by intros [->|]].
Qed.

Lemma concat_on_day (l : list obj) :
  concat ((λ d, on_day d l) <$> first_seen (day <$> l)) ≡ₚ l.
Proof.
  induction l as [|a l IH]; cbn; [done|].
  rewrite String.eqb_refl. cbn. f_equiv.
  rewrite <- IH at 3.
  rewrite (concat_filter_out (λ d, on_day d l) _ (day a))
    by apply NoDup_first_seen.
  assert (Hrest :
    (λ d, on_day d (a :: l)) <$> List.filter (λ y, negb (String.eqb y (day a)))
                                   (first_seen (day <$> l))
    = (λ d, on_day d l) <$> List.filter (λ y, negb (String.eqb y (day a)))
                              (first_seen (day <$> l))).
  { apply list_fmap_ext. intros i d Hd.
    apply list_elem_of_lookup_2, list_elem_of_In, filter_In in Hd as [_ Hd].
    apply negb_true_iff in Hd. unfold on_day. cbn.
    rewrite String.eqb_sym in Hd. by rewrite Hd. }
  unfold on_day at 2 in Hrest. cbn in Hrest. rewrite Hrest.
  f_equiv; [|done]. case_bool_decide as Hin; [done|].
  assert (Hnone : on_day (day a) l = []).
  { apply on_day_unseen. by rewrite <- elem_of_first_seen. }
  unfold on_day in Hnone. by rewrite Hnone.
Qed.

Lemma sum_list_concat_length {A} (ls : list (list A)) :
  sum_list (length <$> ls) = length (concat ls).
Proof.
  induction ls as [|l ls IH]; cbn; [done|]. rewrite length_app. lia.
Qed.

Lemma bump_counted (pre : list obj) (a : obj) :
  day a ∉ inherited →
  bump ((λ d, (d, Count (length (on_day d pre)))) <$> first_seen (day <$> pre))
       (day a)
  = (λ d, (d, Count (length (on_day d (pre ++ [a])))))
      <$> first_seen (day <$> pre ++ [a]).
Proof.
  intros Hproto. unfold bump. rewrite own_table, fmap_app.
  cbn [fmap list_fmap]. rewrite first_seen_snoc.
  assert (Hseen : day a ∈ first_seen (day <$> pre) ↔ day a ∈ day <$> pre)
    by apply elem_of_first_seen.
  destruct (decide (day a ∈ day <$> pre)) as [Hin|Hout].
  - rewrite (bool_decide_eq_true_2 (day a ∈ day <$> pre)) by done.
    rewrite bool_decide_eq_true_2 by (by apply Hseen).
    assert (Hg : Count (S (length (on_day (day a) pre)))
                 = Count (length (on_day (day a) (pre ++ [a])))).
    { rewrite on_day_snoc, String.eqb_refl, length_app. cbn. f_equal. lia. }
    rewrite Hg.
    apply (put_table_old (λ d, Count (length (on_day d pre)))
                         (λ d, Count (length (on_day d (pre ++ [a]))))).
    + apply NoDup_first_seen.
    + by apply Hseen.
    + intros k Hk. rewrite on_day_snoc.
      apply not_eq_sym, String.eqb_neq in Hk. rewrite Hk.
      by rewrite app_nil_r.
  - rewrite (bool_decide_eq_false_2 (day a ∈ day <$> pre)) by done.
    rewrite bool_decide_eq_false_2 by (by rewrite Hseen).
    rewrite bool_decide_eq_false_2.
    2:{ intros Heq. apply Hproto. rewrite Heq.
        apply (bool_decide_unpack _). by vm_compute. }
    rewrite bool_decide_eq_false_2 by done.
    rewrite put_table_new by (by rewrite Hseen).
    rewrite fmap_app. cbn. f_equal.
    + apply list_fmap_ext. intros i k Hk. f_equal.
      rewrite on_day_snoc.
      assert (Hne : day a ≠ k).
      { intros <-. apply Hout, Hseen. by eapply list_elem_of_lookup_2. }
      apply String.eqb_neq in Hne. rewrite Hne. by rewrite app_nil_r.
    + do 3 f_equal. rewrite on_day_snoc, String.eqb_refl.
      by rewrite on_day_unseen.
Qed.

Lemma tally_all_counted (pre rest : list obj) :
  Forall fileable rest →
  tally_all ((λ d, (d, Count (length (on_day d pre)))) <$> first_seen (day <$> pre))
            rest
  = inr ((λ d, (d, Count (length (on_day d (pre ++ rest)))))
           <$> first_seen (day <$> pre ++ rest)).
Proof.
  revert pre. induction rest as [|a rest IH]; intros pre Hrest; cbn.
  - by rewrite app_nil_r.
  - apply Forall_cons in Hrest as [[Ha Hproto] Hrest].
    rewrite (day_of_dated _ a Ha), bump_counted by done.
    rewrite (IH (pre ++ [a]) Hrest). by rewrite <- app_assoc.
Qed.

Lemma tally_all_fileable (o o' : list (string * tally)) (l : list obj) :
  tally_all o l = inr o' → Forall dated l.
Proof.
  revert o. induction l as [|a l IH]; intros o Hall; [by apply Forall_nil_2|].
  cbn in Hall. unfold day_of in Hall. apply Forall_cons.
  unfold dated at 1.
  destruct (get a "created_at") as [| |b|s]; try done.
  split; [by eauto|]. by apply (IH _ Hall).
Qed.

(** X7. [GET /user/:userId/activity] when the query brings rows that
    each have a string [created_at] whose day is a plain property name
    (none that every object inherits, no array index): the answer is 200
    with the number of rows and a timeline of one group per day, in the
    order in which the days first occur, each group holding the rows of
    its day in their order and their number; the period repeats the
    bounds that were given, with [beginning] and [now] for a missing or
    empty one; nothing is written to the console. *)
Theorem activity_timeline_groups_by_day
    (userId : string) (startDate endDate : option string) (l : list obj) :
  Forall fileable l →
  Forall (λ a, array_index (day a) = None) l →
  user_activity userId startDate endDate (success (Some l))
  = {| status := 200;
       json := activity_report userId (length l)
                 (grouped l <$> first_seen (day <$> l))
                 (default "beginning" (given startDate))
                 (default "now" (given endDate));
       console_error := [] |}.
Proof.
  intros Hl Hplain. unfold user_activity, success. cbn [error data].
  pose proof (file_all_grouped [] l Hl) as Hall. cbn in Hall. rewrite Hall.
  rewrite object_values_named.
  - by rewrite <- list_fmap_compose.
  - apply Forall_fmap, Forall_forall. intros d Hd. cbn.
    apply elem_of_first_seen, list_elem_of_fmap in Hd as (a & -> & Ha).
    by apply (proj1 (Forall_forall _ _) Hplain).
Qed.

Lemma activity_timeline_groups_by_day_two_days :
  let a1 : obj := {[ "created_at" := VStr "2024-05-02T10:00:00Z"; "type" := VStr "like" ]} in
  let a2 : obj := {[ "created_at" := VStr "2024-05-01T23:10:00Z"; "type" := VStr "post" ]} in
  let a3 : obj := {[ "created_at" := VStr "2024-05-02T08:30:00Z"; "type" := VStr "view" ]} in
  user_activity "u1" (Some "2024-05-01") None (success (Some [a1; a2; a3]))
  = {| status := 200;
       json := activity_report "u1" 3
                 [ {| date := "2024-05-02"; activities := [a1; a3]; count := 2 |};
                   {| date := "2024-05-01"; activities := [a2]; count := 1 |} ]
                 "2024-05-01" "now";
       console_error := [] |}.
Proof.
  intros a1 a2 a3.
  rewrite (activity_timeline_groups_by_day "u1" (Some "2024-05-01") None [a1; a2; a3]).
  - by vm_compute.
  - repeat (apply Forall_cons; split; [split; [by eexists|apply (bool_decide_unpack _); by vm_compute]|]).
    apply Forall_nil_2.
  - repeat (apply Forall_cons; split; [by vm_compute|]). apply Forall_nil_2.
Defined.

Lemma concat_perm {A} (ls ks : list (list A)) :
  ls ≡ₚ ks → concat ls ≡ₚ concat ks.
Proof.
  induction 1 as [|l ls ks _ IH|l k ls|ls ks ms _ IH1 _ IH2]; cbn.
  - done.
  - by rewrite IH.
  - rewrite !app_assoc. f_equiv. apply Permutation_app_comm.
  - by rewrite IH1.
Qed.

(** X8. Whichever way [Object.values] orders the days, the timeline of a
    200 answer partitions the rows: every row is in exactly one group,
    no two groups have the same date, the rows of a group are rows of its
    date, and [count] is their number. *)
Theorem activity_timeline_keeps_every_activity
    (userId : string) (startDate endDate : option string) (l : list obj) :
  Forall fileable l →
  ∃ timeline,
    json (user_activity userId startDate endDate (success (Some l)))
    = activity_report userId (length l) timeline
        (default "beginning" (given startDate)) (default "now" (given endDate))
    ∧ concat (activities <$> timeline) ≡ₚ l
    ∧ NoDup (date <$> timeline)
    ∧ Forall (λ g, count g = length (activities g)
                   ∧ Forall (λ a, day a = date g) (activities g)) timeline.
Proof.
  intros Hl. unfold user_activity, success. cbn [error data].
  pose proof (file_all_grouped [] l Hl) as Hall. cbn in Hall. rewrite Hall.
  eexists. split; [done|].
  set (o := (λ d, (d, grouped l d)) <$> first_seen (day <$> l)).
  assert (Ho : o.*2 = grouped l <$> first_seen (day <$> l)).
  { unfold o. by rewrite <- list_fmap_compose. }
  pose proof (object_values_perm o) as Hperm. rewrite Ho in Hperm.
  split; [|split].
  - rewrite (concat_perm _ _ (fmap_Permutation activities _ _ Hperm)).
    rewrite <- list_fmap_compose. apply concat_on_day.
  - rewrite Hperm, <- list_fmap_compose.
    replace (date ∘ grouped l) with (@Datatypes.id string) by done.
    rewrite list_fmap_id. apply NoDup_first_seen.
  - rewrite Hperm. apply Forall_fmap, Forall_forall. intros d _. cbn.
    split; [done|]. apply Forall_forall. intros a Ha.
    apply list_elem_of_In, filter_In in Ha as [_ Ha].
    by apply String.eqb_eq.
Qed.

Lemma activity_timeline_keeps_every_activity_numbered_days :
  let a1 : obj := {[ "created_at" := VStr "7T10:00:00Z" ]} in
  let a2 : obj := {[ "created_at" := VStr "2024-05-01T23:10:00Z" ]} in
  let a3 : obj := {[ "created_at" := VStr "3" ]} in
  ∃ timeline,
    json (user_activity "u1" None None (success (Some [a1; a2; a3])))
    = activity_report "u1" 3 timeline "beginning" "now"
    ∧ concat (activities <$> timeline) ≡ₚ [a1; a2; a3]
    ∧ NoDup (date <$> timeline)
    ∧ Forall (λ g, count g = length (activities g)
                   ∧ Forall (λ a, day a = date g) (activities g)) timeline.
Proof.
  intros a1 a2 a3.
  apply (activity_timeline_keeps_every_activity "u1" None None [a1; a2; a3]).
  repeat (apply Forall_cons;
          split; [split; [by eexists|apply (bool_decide_unpack _); by vm_compute]|]).
  apply Forall_nil_2.
Defined.

(** X9. The request is answered 200 exactly when the query resolves
    with rows and no error and every row has a string [created_at] whose
    day is not a name objects inherit.  In every other case, whether the
    query rejects, reports an error or brings [null], or a row is not so,
    the answer is 500 with the body [{ error: 'Failed to fetch user
    activity' }] and one line on the console: never a part of a
    timeline. *)
Theorem activity_report_or_failure
    (userId : string) (startDate endDate : option string)
    (s : settlement (response (option (list obj)))) :
  let r := user_activity userId startDate endDate s in
  (status r = 200 ↔ ∃ l, s = success (Some l) ∧ Forall fileable l)
  ∧ (status r ≠ 200 →
     ∃ e, r = {| status := 500;
                 json := error_report "Failed to fetch user activity";
                 console_error := [("User activity error:", e)] |}).
Proof.
  cbn zeta. unfold user_activity.
  destruct s as [[[l|] [e|]]|e]; cbn [error data];
    try (split; [split; [done|by intros (? & [=] & _)]|by eauto]).
  destruct (file_all [] l) as [e|o] eqn:Hall; cbn [status].
  - split; [split; [done|]|by eauto].
    intros (l' & [= <-] & Hl).
    pose proof (file_all_grouped [] l Hl) as Hok. cbn in Hok. congruence.
  - split; [|done]. split; [|done]. intros _. exists l. split; [done|].
    by apply (file_all_fileable [] o).
Qed.

Lemma tally_all_dated (o : list (string * tally)) (l : list obj) :
  Forall dated l → ∃ o', tally_all o l = inr o'.
Proof.
  revert o. induction l as [|a l IH]; intros o Hl; cbn; [by eauto|].
  apply Forall_cons in Hl as [Ha Hl]. rewrite (day_of_dated _ a Ha).
  by apply IH.
Qed.

(** X10. The daily engagement of [GET /stats], for likes and comments
    that each have a string [created_at] whose day is not a name objects
    inherit: the object gets one property per day, created in the order
    in which the days first occur among the likes followed by the
    comments, holding the number of likes plus the number of comments of
    that day; the numbers add up to [totalLikes + totalComments]. *)
Theorem daily_engagement_counts_by_day (likes comments : list obj) :
  Forall fileable (likes ++ comments) →
  ∃ o,
    daily_engagement (Some likes) (Some comments) = inr o
    ∧ o = (λ d, (d, Count (length (on_day d likes) + length (on_day d comments))))
            <$> first_seen (day <$> likes ++ comments)
    ∧ sum_list ((figure ∘ snd) <$> o) = length likes + length comments.
Proof.
  intros Hl. unfold daily_engagement.
  pose proof (tally_all_counted [] _ Hl) as Hall. cbn in Hall. rewrite Hall.
  eexists. split; [done|]. split.
  - apply list_fmap_ext. intros i d _. unfold on_day.
    by rewrite List.filter_app, length_app.
  - rewrite <- list_fmap_compose, <- length_app.
    rewrite <- (Permutation_length (concat_on_day (likes ++ comments))).
    rewrite <- sum_list_concat_length, <- list_fmap_compose. done.
Qed.

Lemma daily_engagement_counts_by_day_three :
  let likes : list obj :=
    [ {[ "created_at" := VStr "2024-05-02T10:00:00Z" ]};
      {[ "created_at" := VStr "2024-05-01T09:00:00Z" ]} ] in
  let comments : list obj := [ {[ "created_at" := VStr "2024-05-02T11:00:00Z" ]} ] in
  daily_engagement (Some likes) (Some comments)
  = inr [("2024-05-02", Count 2); ("2024-05-01", Count 1)].
Proof.
  intros likes comments.
  destruct (daily_engagement_counts_by_day likes comments) as (o & -> & -> & _).
  - repeat (apply Forall_cons;
            split; [split; [by eexists|apply (bool_decide_unpack _); by vm_compute]|]).
    apply Forall_nil_2.
  - by vm_compute.
Defined.

(** X11. The block that calculates the daily engagement runs through
    exactly when both queries brought rows and every row has a string
    [created_at]; in every other case it throws, which takes the route to
    its [catch]. *)
Theorem daily_engagement_needs_dated_rows
    (likesData commentsData : option (list obj)) :
  (∃ o, daily_engagement likesData commentsData = inr o)
  ↔ ∃ likes comments,
      likesData = Some likes ∧ commentsData = Some comments
      ∧ Forall dated (likes ++ comments).
Proof.
  unfold daily_engagement. split.
  - intros [o Ho]. destruct likesData as [likes|], commentsData as [comments|];
      try done.
    exists likes, comments. split; [done|]. split; [done|].
    by apply (tally_all_fileable [] o).
  - intros (likes & comments & -> & -> & Hl). by apply tally_all_dated.
Qed.

End analytics_facts.

(** ** The operations scripts: what they do *)

Lemma wrap64_small (z : Z) :
  (- 2 ^ 63 ≤ z < 2 ^ 63)%Z → shell.wrap64 z = z.
Proof. intros Hz. unfold shell.wrap64. rewrite Z.mod_small; lia. Qed.

Lemma days_left_lt (e now k : Z) :
  (- 2 ^ 63 ≤ e - now < 2 ^ 63)%Z → (0 < k)%Z →
  (shell.days_left (Some e) now <? k)%Z = (e - now <? 86400 * k)%Z.
Proof.
  intros Hz Hk. unfold shell.days_left.
  change (default 0%Z (Some e)) with e.
  rewrite (wrap64_small _ Hz).
  destruct (Z.ltb_spec (e - now) (86400 * k)) as [H|H];
    [apply Z.ltb_lt | apply Z.ltb_ge];
    Z.to_euclidean_division_equations; lia.
Qed.

Section renew_ssl_facts.
Import shell renew_ssl.

(** X12. The renewal script, with the certificate in place and the
    difference of the two times within the 64-bit integers: it starts to
    renew, its first command being to stop nginx, when the certificate
    expires less than 30 times 86400 seconds from now; otherwise it runs
    no command and ends with status 0. *)
Theorem renewal_is_due_below_thirty_days (h : host) (e : Z) :
  certificate h = true →
  expiry h = Some e →
  (- 2 ^ 63 ≤ e - clock h < 2 ^ 63)%Z →
  ((e - clock h < 2592000)%Z → ∃ rest, (main h).1 = systemctl_stop_nginx :: rest)
  ∧ ((2592000 ≤ e - clock h)%Z → main h = ([], 0)).
Proof.
  intros Hcert He Hrange. unfold main. rewrite Hcert, He.
  rewrite (days_left_lt _ _ 30 Hrange) by lia. cbn [negb]. split; intros Hdue.
  - rewrite (proj2 (Z.ltb_lt _ _)) by lia.
    unfold script, renew, errexit, or_else, run, mbind, sh_bind, bind.
    cbn [app].
    repeat (destruct (exit_status h _); cbn; try by eauto).
    all: destruct (slack_webhook h); cbn; by eauto.
  - by rewrite (proj2 (Z.ltb_ge _ _)) by lia.
Qed.

Lemma renewal_is_due_below_thirty_days_at_29 :
  let h := {| certificate := true; expiry := Some 1702505600%Z;
              clock := 1700000000%Z; slack_webhook := false;
              exit_status := λ _, 0 |} in
  ((1702505600 - 1700000000 < 2592000)%Z →
   ∃ rest, (main h).1 = systemctl_stop_nginx :: rest)
  ∧ ((2592000 ≤ 1702505600 - 1700000000)%Z → main h = ([], 0)).
Proof.
  intros h. apply (renewal_is_due_below_thirty_days h 1702505600);
    [reflexivity | reflexivity | simpl; lia].
Defined.

(** X13. When [certbot renew] has been run and it, one of the two
    copies or the [chmod] fails, the script ends there with a status
    other than 0: nginx was stopped by one of the two stop commands, and
    neither start command is run. *)
Theorem failed_renewal_leaves_nginx_stopped (h : host) :
  certbot_renew ∈ (main h).1 →
  exit_status h certbot_renew ≠ 0 ∨ exit_status h cp_fullchain ≠ 0
  ∨ exit_status h cp_privkey ≠ 0 ∨ exit_status h chmod_600 ≠ 0 →
  (exit_status h systemctl_stop_nginx = 0 ∨ exit_status h compose_stop_nginx = 0)
  ∧ (main h).2 ≠ 0
  ∧ (systemctl_start_nginx ∉ (main h).1)
  ∧ (compose_start_nginx ∉ (main h).1).
Proof.
  unfold main.
  destruct (certificate h); cbn [negb]; [|by intros ?%elem_of_nil].
  destruct (days_left (expiry h) (clock h) <? 30)%Z; [|by intros ?%elem_of_nil].
  unfold script, renew, errexit, or_else, run, mbind, sh_bind, bind.
  cbn [app].
  destruct (exit_status h systemctl_stop_nginx) eqn:Hstop; cbn;
    [|destruct (exit_status h compose_stop_nginx) eqn:Hstop'; cbn;
      [|by intros ?%(bool_decide_pack _)]].
  all: destruct (exit_status h certbot_renew); cbn;
    [|intros _ _; repeat split; auto;
      by (apply (bool_decide_unpack _))].
  all: destruct (exit_status h cp_fullchain); cbn;
    [|intros _ _; repeat split; auto;
      by (apply (bool_decide_unpack _))].
  all: destruct (exit_status h cp_privkey); cbn;
    [|intros _ _; repeat split; auto;
      by (apply (bool_decide_unpack _))].
  all: destruct (exit_status h chmod_600); cbn;
    [|intros _ _; repeat split; auto;
      by (apply (bool_decide_unpack _))].
  all: by intros _ [?|[?|[?|?]]].
Qed.

Lemma failed_renewal_leaves_nginx_stopped_certbot :
  let h := {| certificate := true; expiry := Some 1700864000%Z;
              clock := 1700000000%Z; slack_webhook := true;
              exit_status := λ c, if decide (c = certbot_renew) then 1 else 0 |} in
  (exit_status h systemctl_stop_nginx = 0 ∨ exit_status h compose_stop_nginx = 0)
  ∧ (main h).2 ≠ 0
  ∧ (systemctl_start_nginx ∉ (main h).1)
  ∧ (compose_start_nginx ∉ (main h).1).
Proof.
  intros h. apply (failed_renewal_leaves_nginx_stopped h).
  - apply (bool_decide_unpack _). by vm_compute.
  - left. by vm_compute.
Defined.

(** X14. A renewal that ran a command and ended with status 0 has been
    through every step: [certbot renew], the two copies, the [chmod], the
    reload and the backup copy were run and returned 0, and one of the
    two start commands was run and returned 0. *)
Theorem finished_renewal_has_started_nginx (h : host) :
  (main h).2 = 0 →
  (main h).1 ≠ [] →
  Forall (λ c, c ∈ (main h).1 ∧ exit_status h c = 0)
    [certbot_renew; cp_fullchain; cp_privkey; chmod_600; nginx_reload; cp_backup]
  ∧ ∃ c, c ∈ [systemctl_start_nginx; compose_start_nginx]
         ∧ c ∈ (main h).1 ∧ exit_status h c = 0.
Proof.
  unfold main.
  destruct (certificate h); cbn [negb]; [|done].
  destruct (days_left (expiry h) (clock h) <? 30)%Z; [|done].
  unfold script, renew, errexit, or_else, run, mbind, sh_bind, bind.
  cbn [app]. intros Hexit _.
  destruct (exit_status h systemctl_stop_nginx) eqn:Hstop; cbn in *;
    [|destruct (exit_status h compose_stop_nginx) eqn:Hstop'; cbn in *; [|done]].
  all: destruct (exit_status h certbot_renew) eqn:?; cbn in *; [|done].
  all: destruct (exit_status h cp_fullchain) eqn:?; cbn in *; [|done].
  all: destruct (exit_status h cp_privkey) eqn:?; cbn in *; [|done].
  all: destruct (exit_status h chmod_600) eqn:?; cbn in *; [|done].
  all: destruct (exit_status h systemctl_start_nginx) eqn:?; cbn in *;
    [|destruct (exit_status h compose_start_nginx) eqn:?; cbn in *; [|done]].
  all: destruct (exit_status h nginx_reload) eqn:?; cbn in *; [|done].
  all: destruct (exit_status h cp_backup) eqn:?; cbn in *; [|done].
  all: destruct (slack_webhook h); cbn in *.
  all: split;
    [repeat (apply Forall_cons; split;
             [split; [by apply (bool_decide_unpack _)|done]|]);
     apply Forall_nil_2|].
  all: first
    [ by (exists systemctl_start_nginx;
          split; [by apply (bool_decide_unpack _)|];
          split; [by apply (bool_decide_unpack _)|done])
    | by (exists compose_start_nginx;
          split; [by apply (bool_decide_unpack _)|];
          split; [by apply (bool_decide_unpack _)|done]) ].
Qed.

Lemma finished_renewal_has_started_nginx_through_compose :
  let h := {| certificate := true; expiry := Some 1700864000%Z;
              clock := 1700000000%Z; slack_webhook := false;
              exit_status := λ c, if decide (c = systemctl_start_nginx) then 5 else 0 |} in
  Forall (λ c, c ∈ (main h).1 ∧ exit_status h c = 0)
    [certbot_renew; cp_fullchain; cp_privkey; chmod_600; nginx_reload; cp_backup]
  ∧ ∃ c, c ∈ [systemctl_start_nginx; compose_start_nginx]
         ∧ c ∈ (main h).1 ∧ exit_status h c = 0.
Proof.
  intros h. apply (finished_renewal_has_started_nginx h); by vm_compute.
Defined.
End renew_ssl_facts.

Section health_check_facts.
Import shell health_check.

(** Runs the script check by check; [tac] closes the case in which the
    check fails. *)
Local Ltac checks h tac :=
  unfold main, script, containers, check_containers, check, check_certificate,
    note, exit, mbind, sh_bind, bind, mret, sh_ret, ret;
  cbn [app];
  (destruct (running h "xoleric-frontend") eqn:?; cbn [app]; [|tac]);
  (destruct (running h "xoleric-backend") eqn:?; cbn [app]; [|tac]);
  (destruct (running h "xoleric-postgres") eqn:?; cbn [app]; [|tac]);
  (destruct (running h "xoleric-redis") eqn:?; cbn [app]; [|tac]);
  (destruct (running h "xoleric-traefik") eqn:?; cbn [app]; [|tac]);
  (destruct (frontend h) eqn:?; cbn [app]; [|tac]);
  (destruct (backend h) eqn:?; cbn [app]; [|tac]);
  (destruct (database h) eqn:?; cbn [app]; [|tac]);
  (destruct (redis h) eqn:?; cbn [app]; [|tac]).

(** X15. The health check ends with status 0 or 1, and with 0 exactly
    when the five containers are running, the frontend, the backend, the
    database and Redis answer, and the certificate is absent or has more
    than 7 days left.  Disk and memory usage never change the status. *)
Theorem health_check_passes_iff (h : host) :
  (main h).2 ≤ 1
  ∧ ((main h).2 = 0
     ↔ Forall (λ c, running h c = true) containers
       ∧ frontend h = true ∧ backend h = true
       ∧ database h = true ∧ redis h = true
       ∧ (certificate h = false ∨ (7 < days_left (expiry h) (clock h))%Z)).
Proof.
  assert (Hcs : ∀ P : Prop,
            (Forall (λ c, running h c = true) containers ∧ P)
            ↔ (running h "xoleric-frontend" = true
               ∧ running h "xoleric-backend" = true
               ∧ running h "xoleric-postgres" = true
               ∧ running h "xoleric-redis" = true
               ∧ running h "xoleric-traefik" = true) ∧ P).
  { intros P. unfold containers. rewrite !Forall_cons, Forall_nil. tauto. }
  rewrite Hcs. clear Hcs.
  checks h ltac:(cbn; split; [lia|]; split; [done|];
                 intros [(? & ? & ? & ? & ?) (? & ? & ? & ? & ?)]; congruence).
  destruct (certificate h); cbn [app].
  - destruct (30 <? days_left (expiry h) (clock h))%Z eqn:Hmonth; cbn [app];
      [|destruct (7 <? days_left (expiry h) (clock h))%Z eqn:Hweek; cbn [app]];
      cbn; (split; [lia|]).
    + split; [|done]. intros _. repeat split; try done. right. lia.
    + split; [|done]. intros _. repeat split; try done. right. lia.
    + split; [done|]. intros [_ (_ & _ & _ & _ & [?|?])]; [done|lia].
  - cbn. split; [lia|]. split; [|done]. intros _. repeat split; try done.
    by left.
Qed.

(** X16. The output of the health check ends with its verdict: the last
    line is "All health checks passed" when the status is 0 and a failure
    line when it is 1, and no line before the last is a failure line: the
    script stops at the first check that fails. *)
Theorem health_check_ends_with_its_verdict (h : host) :
  Forall (λ l, alarm l = false) (removelast (main h).1)
  ∧ ((main h).2 = 0 ∧ last (main h).1 = Some all_passed
     ∨ (main h).2 = 1 ∧ ∃ l, last (main h).1 = Some l ∧ alarm l = true).
Proof.
  checks h ltac:(cbn; split;
                 [repeat (apply Forall_cons; split; [done|]); apply Forall_nil_2
                 |right; split; [done|]; by eexists]).
  destruct (certificate h); cbn [app];
    [destruct (30 <? days_left (expiry h) (clock h))%Z eqn:Hmonth; cbn [app];
      [|destruct (7 <? days_left (expiry h) (clock h))%Z eqn:Hweek; cbn [app]]|].
  all: cbn.
  all: split;
    [repeat (apply Forall_cons; split;
             [first [ done
                    | by destruct (disk_usage h <? 90)%Z
                    | by destruct (memory_usage h <? 80)%Z ]|]);
     apply Forall_nil_2|].
  all: first [by left | right; split; [done|]; by eexists].
Qed.
End health_check_facts.

Section certificate_facts.
Import shell.

(** Closes a case in which the output has no alarm for the certificate. *)
Local Ltac no_alarm c :=
  cbn; rewrite !elem_of_cons, elem_of_nil;
  let Hin := fresh in
  intros Hin; exfalso; repeat destruct Hin as [Hin|Hin]; try done;
  first [ by destruct (health_check.disk_usage c <? 90)%Z
        | by destruct (health_check.memory_usage c <? 80)%Z ].

(** X17. The health check and the renewal script agree: whenever the
    health check raises its alarm about the certificate, the renewal
    script, reading the same certificate at the same time, starts to
    renew it. *)
Theorem certificate_alarm_means_renewal_is_due
    (c : health_check.host) (r : renew_ssl.host) (days : Z) :
  renew_ssl.certificate r = health_check.certificate c →
  renew_ssl.expiry r = health_check.expiry c →
  renew_ssl.clock r = health_check.clock c →
  health_check.certificate_alarm days ∈ (health_check.main c).1 →
  ∃ rest, (renew_ssl.main r).1 = renew_ssl.systemctl_stop_nginx :: rest.
Proof.
  intros Hcert Hexpiry Hclock Halarm.
  assert (Hdue : renew_ssl.certificate r = true
                 ∧ (days_left (renew_ssl.expiry r) (renew_ssl.clock r) <? 30)%Z = true).
  { rewrite Hcert, Hexpiry, Hclock. clear Hcert Hexpiry Hclock. revert Halarm.
    unfold health_check.main, script, health_check.containers,
      health_check.check_containers, health_check.check,
      health_check.check_certificate,
      note, exit, mbind, sh_bind, bind, mret, sh_ret, ret.
    cbn [app].
    (destruct (health_check.running c "xoleric-frontend"); cbn [app];
       [|no_alarm c]).
    (destruct (health_check.running c "xoleric-backend"); cbn [app];
       [|no_alarm c]).
    (destruct (health_check.running c "xoleric-postgres"); cbn [app];
       [|no_alarm c]).
    (destruct (health_check.running c "xoleric-redis"); cbn [app];
       [|no_alarm c]).
    (destruct (health_check.running c "xoleric-traefik"); cbn [app];
       [|no_alarm c]).
    (destruct (health_check.frontend c); cbn [app]; [|no_alarm c]).
    (destruct (health_check.backend c); cbn [app]; [|no_alarm c]).
    (destruct (health_check.database c); cbn [app]; [|no_alarm c]).
    (destruct (health_check.redis c); cbn [app]; [|no_alarm c]).
    destruct (health_check.certificate c); cbn [app]; [|no_alarm c].
    destruct (30 <? _)%Z eqn:Hmonth; cbn [app]; [no_alarm c|].
    destruct (7 <? _)%Z eqn:Hweek; cbn [app]; [no_alarm c|].
    intros _. split; [done|]. apply Z.ltb_lt. apply Z.ltb_ge in Hweek. lia. }
  destruct Hdue as [Hc Hd]. unfold renew_ssl.main. rewrite Hc, Hd. cbn [negb].
  unfold script, renew_ssl.renew, errexit, or_else, renew_ssl.run,
    mbind, sh_bind, bind.
  cbn [app].
  repeat (destruct (renew_ssl.exit_status r _); cbn; try by eauto).
  all: destruct (renew_ssl.slack_webhook r); cbn; by eauto.
Qed.

Lemma certificate_alarm_means_renewal_is_due_in_five_days :
  let c := {| health_check.running := λ _, true;
              health_check.frontend := true; health_check.backend := true;
              health_check.database := true; health_check.redis := true;
              health_check.disk_usage := 40; health_check.memory_usage := 50;
              health_check.certificate := true;
              health_check.expiry := Some 1700432000%Z;
              health_check.clock := 1700000000%Z |} in
  let r := {| renew_ssl.certificate := true;
              renew_ssl.expiry := Some 1700432000%Z;
              renew_ssl.clock := 1700000000%Z;
              renew_ssl.slack_webhook := false;
              renew_ssl.exit_status := λ _, 0 |} in
  ∃ rest, (renew_ssl.main r).1 = renew_ssl.systemctl_stop_nginx :: rest.
Proof.
  intros c r.
  apply (certificate_alarm_means_renewal_is_due c r 5);
    [reflexivity | reflexivity | reflexivity |].
  apply (bool_decide_unpack _). by vm_compute.
Defined.
End certificate_facts.

Section scale_app_facts.
Import shell scale_app.

(** X18. The scaling script never asks for fewer than one replica of the
    backend, and asks for more than five only when scaling down from more
    than six, to one less than are up (the count of replicas being below
    the largest 64-bit integer). *)
Theorem scaling_asks_for_one_to_five_replicas (h : host) (n : Z) :
  (Z.of_nat (backend_up h) < 2 ^ 63 - 1)%Z →
  scale_backend n ∈ (main h).1 →
  (1 ≤ n)%Z ∧ ((5 < n)%Z → n = (Z.of_nat (backend_up h) - 1)%Z).
Proof.
  intros Hup. unfold main, script, errexit, run, exit.
  unfold mbind, sh_bind, bind, mret, sh_ret, ret. cbn [app].
  destruct (env_production h); [|by intros ?%elem_of_nil].
  destruct (scard_status h); [|by intros ?%elem_of_nil].
  destruct (backend_up h) as [|up] eqn:Hn; [by intros ?%elem_of_nil|].
  rewrite <- Hn in *. assert (0 < Z.of_nat (backend_up h))%Z by lia.
  clear Hn. set (current := Z.of_nat (backend_up h)) in *.
  rewrite !wrap64_small by lia.
  unfold SCALE_UP_CPU, SCALE_UP_USERS, SCALE_DOWN_CPU, SCALE_DOWN_USERS.
  destruct ((200 <? cpu_load h)%Z || (1000 <? active_users h)%Z).
  - assert (Hn : ∀ l : list event,
              scale_backend n ∈ scale_backend
                (if (5 <? current + 1)%Z then 5%Z else (current + 1)%Z) :: l →
              Forall (λ e, ∀ m, e ≠ scale_backend m) l →
              (1 ≤ n)%Z ∧ ((5 < n)%Z → n = (current - 1)%Z)).
    { intros l [Heq|Hin]%elem_of_cons Hl.
      - injection Heq as ->. destruct (Z.ltb_spec 5 (current + 1)); lia.
      - exfalso. by apply (proj1 (Forall_forall _ _) Hl _ Hin n). }
    repeat (destruct (exit_status h _); cbn);
      intros Hin; apply (Hn _ Hin);
      repeat (apply Forall_cons; split; [done|]); apply Forall_nil_2.
  - destruct ((cpu_load h <? 50)%Z && (active_users h <? 100)%Z
              && (1 <? current)%Z) eqn:Hdown.
    + apply andb_prop in Hdown as [_ Hcur%Z.ltb_lt].
      assert (Hn : ∀ l : list event,
                scale_backend n ∈ scale_backend
                  (if (current - 1 <? 1)%Z then 1%Z else (current - 1)%Z) :: l →
                Forall (λ e, ∀ m, e ≠ scale_backend m) l →
                (1 ≤ n)%Z ∧ ((5 < n)%Z → n = (current - 1)%Z)).
      { intros l [Heq|Hin]%elem_of_cons Hl.
        - injection Heq as ->. destruct (Z.ltb_spec (current - 1) 1); lia.
        - exfalso. by apply (proj1 (Forall_forall _ _) Hl _ Hin n). }
      repeat (destruct (exit_status h _); cbn);
        intros Hin; apply (Hn _ Hin);
        repeat (apply Forall_cons; split; [done|]); apply Forall_nil_2.
    + destruct (exit_status h _); cbn;
        intros Hin%list_elem_of_singleton; done.
Qed.

Lemma scaling_asks_for_one_to_five_replicas_from_seven :
  let h := {| env_production := true; cpu_load := 10; memory_usage := 10;
              scard_status := 0; active_users := 5; backend_up := 7;
              exit_status := λ _, 0 |} in
  (1 ≤ 6)%Z ∧ ((5 < 6)%Z → 6%Z = (Z.of_nat (backend_up h) - 1)%Z).
Proof.
  intros h. apply (scaling_asks_for_one_to_five_replicas h 6).
  - simpl. lia.
  - vm_compute. by left.
Defined.

(** X19. With no replica of the backend up, [grep -c] counts no line and
    returns 1, which ends the script under [set -e]: it scales nothing
    and writes no line to the scaling log, whatever the load. *)
Theorem no_replica_up_ends_the_scaling (h : host) :
  backend_up h = 0 → (main h).1 = [] ∧ (main h).2 ≠ 0.
Proof.
  intros Hup. unfold main, script, errexit, run, exit.
  unfold mbind, sh_bind, bind, mret, sh_ret, ret. cbn [app].
  destruct (env_production h); [|done].
  destruct (scard_status h); [|done].
  by rewrite Hup.
Qed.

Lemma no_replica_up_ends_the_scaling_under_load :
  let h := {| env_production := true; cpu_load := 900; memory_usage := 95;
              scard_status := 0; active_users := 5000; backend_up := 0;
              exit_status := λ _, 0 |} in
  (main h).1 = [] ∧ (main h).2 ≠ 0.
Proof. intros h. apply (no_replica_up_ends_the_scaling h). reflexivity. Defined.
End scale_app_facts.

Section lock_monitor_facts.
Import shell lock_monitor.

Lemma check_lock_file_run (h : host) (f : string) (t : list event) :
  check_lock_file h f t
  = if sound h f then (t ++ [passed f], inl 0)
    else (t ++ [if is_file (files h f)
                then if is_readable (files h f) then invalid_json f
                     else not_readable f
                else does_not_exist f], inl 1).
Proof.
  unfold check_lock_file, MAX_RETRIES, retry, check_once, sound, passed.
  unfold mbind, sh_bind, bind, mret, sh_ret, ret, note.
  destruct (is_file (files h f)), (is_readable (files h f)), (dot_json f),
    (is_json (files h f)); reflexivity.
Qed.

(** X20. [check_lock_file] decides at the first look: it prints one line,
    the confirmation with status 0 for a readable file (of valid JSON, if
    named [*.json]) and a complaint with status 1 otherwise; it never
    sleeps, never looks again and never reports that its retries ran
    out. *)
Theorem check_lock_file_never_retries (h : host) (f : string) (t : list event) :
  ∃ e s,
    check_lock_file h f t = (t ++ [e], inl s)
    ∧ (if sound h f then e = passed f ∧ s = 0 else complaint e = true ∧ s = 1).
Proof.
  rewrite check_lock_file_run. destruct (sound h f) eqn:Hsound.
  - by eexists _, _.
  - eexists _, _. split; [done|]. split; [|done].
    by destruct (is_file (files h f)), (is_readable (files h f)).
Qed.

Lemma check_each_sound (h : host) (fs : list string) (t : list event) :
  Forall (λ f, sound h f = true) fs →
  check_each h fs t = (t ++ (passed <$> fs), inl ()).
Proof.
  revert t. induction fs as [|f fs IH]; intros t Hfs; cbn [check_each fmap list_fmap].
  - unfold mret, sh_ret, ret. by rewrite app_nil_r.
  - apply Forall_cons in Hfs as [Hf Hfs].
    unfold errexit, mbind, sh_bind, bind. rewrite check_lock_file_run, Hf.
    cbn. unfold mbind, sh_bind, bind in IH. rewrite IH by done.
    by rewrite <- app_assoc.
Qed.

Lemma check_each_unsound (h : host) (pre post : list string) (f : string)
    (t : list event) :
  Forall (λ f, sound h f = true) pre → sound h f = false →
  ∃ e, check_each h (pre ++ f :: post) t = (t ++ (passed <$> pre) ++ [e], inr 1)
       ∧ complaint e = true.
Proof.
  revert t. induction pre as [|g pre IH]; intros t Hpre Hf;
    cbn [check_each fmap list_fmap app].
  - unfold errexit, mbind, sh_bind, bind. rewrite check_lock_file_run, Hf.
    cbn. eexists. split; [done|].
    by destruct (is_file (files h f)), (is_readable (files h f)).
  - apply Forall_cons in Hpre as [Hg Hpre].
    unfold errexit, mbind, sh_bind, bind. rewrite check_lock_file_run, Hg.
    cbn. destruct (IH (t ++ [passed g]) Hpre Hf) as (e & He & Hc).
    unfold errexit, mbind, sh_bind, bind in He. rewrite He.
    exists e. split; [|done]. by rewrite <- app_assoc.
Qed.

(** X21. Called with [once], the script stops at the first lock file
    that fails its check: the files before it are confirmed, the
    complaint about it is the last line, the status is 1, and neither the
    files after it nor the conflicts are looked at. *)
Theorem once_stops_at_the_first_bad_file
    (h : host) (pre post : list string) (f : string) :
  LOCK_FILES = pre ++ f :: post →
  Forall (λ f, sound h f = true) pre →
  sound h f = false →
  ∃ e, once h = (monitoring :: (passed <$> pre) ++ [e], 1) ∧ complaint e = true.
Proof.
  intros Hfiles Hpre Hf. unfold once, script. rewrite Hfiles.
  unfold mbind, sh_bind, bind, note. cbn [app].
  destruct (check_each_unsound h pre post f [monitoring] Hpre Hf) as (e & -> & He).
  by exists e.
Qed.

Lemma once_stops_at_the_first_bad_file_backend :
  let h := {| files := λ f, {| is_file := negb (String.eqb f "backend/package-lock.json");
                              is_readable := true; is_json := true |};
              unmerged_lock := false |} in
  ∃ e, once h = (monitoring :: (passed <$> ["frontend/package-lock.json"]) ++ [e], 1)
       ∧ complaint e = true.
Proof.
  intros h.
  apply (once_stops_at_the_first_bad_file h ["frontend/package-lock.json"]
           ["deploy.lock.json"] "backend/package-lock.json");
    [reflexivity | by apply Forall_cons | reflexivity].
Defined.

(** X22. Called with [once], the script ends with status 0 exactly when
    the three lock files pass their check and git reports no unmerged
    [package-lock.json]; that both a [package-lock.json] and a
    [yarn.lock] exist is only a warning. *)
Theorem once_passes_iff (h : host) :
  (once h).2 = 0
  ↔ Forall (λ f, sound h f = true) LOCK_FILES ∧ unmerged_lock h = false.
Proof.
  unfold once, script, LOCK_FILES, check_each, check_conflicts.
  unfold errexit, mbind, sh_bind, bind, mret, sh_ret, ret, note, exit.
  rewrite !Forall_cons, Forall_nil. cbn [app].
  rewrite check_lock_file_run.
  destruct (sound h "frontend/package-lock.json"); cbn [app];
    [|split; [done|by intros [[? _] _]]].
  rewrite check_lock_file_run.
  destruct (sound h "backend/package-lock.json"); cbn [app];
    [|split; [done|by intros [(_ & ? & _) _]]].
  rewrite check_lock_file_run.
  destruct (sound h "deploy.lock.json"); cbn [app];
    [|split; [done|by intros [(_ & _ & ? & _) _]]].
  destruct (is_file (files h "frontend/package-lock.json")
            && is_file (files h "frontend/yarn.lock")),
    (is_file (files h "backend/package-lock.json")
     && is_file (files h "backend/yarn.lock")),
    (unmerged_lock h); cbn; split; try done; by intros [_ ?].
Qed.
End lock_monitor_facts.

Section deploy_facts.
Import shell deploy.

(** Runs [c] if the script is about to; [tac] closes the case in which
    it fails. *)
Local Ltac step h c tac :=
  lazymatch goal with
  | |- context [exit_status h c] =>
      destruct (exit_status h c) eqn:?; cbn [app]; [|tac]
  | |- _ => idtac
  end.

Local Ltac walk h tac :=
  unfold main, script, check_dependencies, setup_ssl, backup_database,
    build_images, deploy_services, check_service_health, run_migrations,
    or_exit_1, errexit, run, exit, mbind, sh_bind, bind, mret, sh_ret, ret;
  destruct (production h);
    [destruct (ssl_key h), (ssl_crt h)|]; destruct (registry h);
  cbn [app negb orb];
  step h command_v_docker tac; step h command_v_docker_compose tac;
  step h command_v_node tac; step h mkdir_ssl tac; step h openssl_req tac;
  step h mkdir_backup tac; step h pg_dump tac; step h gzip_backup tac;
  step h find_old_backups tac; step h build_frontend tac;
  step h build_backend tac; step h tag_frontend tac; step h tag_backend tac;
  step h push_frontend tac; step h push_backend tac; step h compose_down tac;
  step h compose_pull tac; step h compose_up tac; step h sleep_30 tac;
  step h curl_frontend tac; step h curl_backend tac; step h pg_isready tac;
  step h psql_migrations tac.

Local Ltac decided := apply (bool_decide_unpack _); vm_compute; exact I.

Local Ltac absent :=
  let H := fresh in intros H; apply (bool_decide_pack _) in H; by vm_compute in H.

Local Ltac present :=
  intros _;
  repeat (apply Forall_cons; split;
          [split; [decided|done]|]);
  apply Forall_nil_2.

(** X23. The deployment takes the running services down only after
    docker, docker-compose and node were found and both images were
    built, in production only after the database was dumped and the dump
    compressed, and with a registry only after both images were pushed:
    each of these commands was run before [docker-compose down] and
    returned 0. *)
Theorem services_go_down_after_backup_and_build (h : host) :
  compose_down ∈ (main h).1 →
  Forall (λ c, c ∈ before compose_down (main h).1 ∧ exit_status h c = 0)
    ([command_v_docker; command_v_docker_compose; command_v_node;
      build_frontend; build_backend]
     ++ (if production h then [pg_dump; gzip_backup] else [])
     ++ (if registry h then [push_frontend; push_backend] else [])).
Proof.
  walk h ltac:(first [absent | present]).
  all: present.
Qed.

Lemma services_go_down_after_backup_and_build_in_production :
  let h := {| production := true; ssl_key := true; ssl_crt := false;
              registry := false;
              exit_status := λ c, if decide (c = curl_backend) then 22 else 0 |} in
  Forall (λ c, c ∈ before compose_down (main h).1 ∧ exit_status h c = 0)
    ([command_v_docker; command_v_docker_compose; command_v_node;
      build_frontend; build_backend]
     ++ (if production h then [pg_dump; gzip_backup] else [])
     ++ (if registry h then [push_frontend; push_backend] else [])).
Proof.
  intros h. apply (services_go_down_after_backup_and_build h).
  apply (bool_decide_unpack _). by vm_compute.
Defined.

(** X24. The migrations are run only on services that answer: before
    they are run, the old services were taken down, the new ones brought
    up, and the frontend, the backend and the database passed their
    health check, each with status 0. *)
Theorem migrations_run_on_healthy_services (h : host) :
  psql_migrations ∈ (main h).1 →
  Forall (λ c, c ∈ before psql_migrations (main h).1 ∧ exit_status h c = 0)
    [compose_down; compose_up; curl_frontend; curl_backend; pg_isready].
Proof.
  walk h ltac:(first [absent | present]).
  all: present.
Qed.

Lemma migrations_run_on_healthy_services_in_staging :
  let h := {| production := false; ssl_key := false; ssl_crt := false;
              registry := true;
              exit_status := λ c, if decide (c = psql_migrations) then 3 else 0 |} in
  Forall (λ c, c ∈ before psql_migrations (main h).1 ∧ exit_status h c = 0)
    [compose_down; compose_up; curl_frontend; curl_backend; pg_isready].
Proof.
  intros h. apply (migrations_run_on_healthy_services h).
  apply (bool_decide_unpack _). by vm_compute.
Defined.

(** X25. A health check that fails ends the deployment where it is: the
    status is 1, the failed check is the last command that was run, the
    new services stay up (nothing is rolled back) and the migrations are
    not run. *)
Theorem failed_health_check_ends_the_deployment (h : host) :
  curl_frontend ∈ (main h).1 →
  exit_status h curl_frontend ≠ 0 ∨ exit_status h curl_backend ≠ 0
  ∨ exit_status h pg_isready ≠ 0 →
  (main h).2 = 1
  ∧ (psql_migrations ∉ (main h).1)
  ∧ compose_up ∈ (main h).1
  ∧ ∃ c, last (main h).1 = Some c
         ∧ c ∈ [curl_frontend; curl_backend; pg_isready]
         ∧ exit_status h c ≠ 0.
Proof.
  walk h ltac:(first
    [ absent
    | intros _ _; split; [done|]; split; [decided|]; split; [decided|];
      eexists; split; [done|]; split; [decided|congruence]
    | by intros _ [?|[?|?]] ]).
  all: by intros _ [?|[?|?]].
Qed.

Lemma failed_health_check_ends_the_deployment_backend :
  let h := {| production := true; ssl_key := true; ssl_crt := true;
              registry := false;
              exit_status := λ c, if decide (c = curl_backend) then 22 else 0 |} in
  (main h).2 = 1
  ∧ (psql_migrations ∉ (main h).1)
  ∧ compose_up ∈ (main h).1
  ∧ ∃ c, last (main h).1 = Some c
         ∧ c ∈ [curl_frontend; curl_backend; pg_isready]
         ∧ exit_status h c ≠ 0.
Proof.
  intros h. apply (failed_health_check_ends_the_deployment h).
  - apply (bool_decide_unpack _). by vm_compute.
  - right. left. by vm_compute.
Defined.

(** X26. A deployment that ends with status 0 has run the migrations as
    its last command, and every command it ran returned 0. *)
Theorem finished_deployment_has_migrated (h : host) :
  (main h).2 = 0 →
  last (main h).1 = Some psql_migrations
  ∧ Forall (λ c, exit_status h c = 0) (main h).1.
Proof.
  walk h ltac:(by cbn).
  all: intros _; split; [done|].
  all: repeat (apply Forall_cons; split; [done|]); apply Forall_nil_2.
Qed.

Lemma finished_deployment_has_migrated_smoothly :
  let h := {| production := true; ssl_key := false; ssl_crt := false;
              registry := true; exit_status := λ _, 0 |} in
  last (main h).1 = Some psql_migrations
  ∧ Forall (λ c, exit_status h c = 0) (main h).1.
Proof.
  intros h. apply (finished_deployment_has_migrated h). reflexivity.
Defined.
End deploy_facts.
